(** * The reference index of the diff cache (cache/diff.go)

    A shallow embedding of the delta codec ([MarshalRefs], [UnmarshalRefs]),
    of the buffered, merge-on-flush reference index ([RefIndex]) and of the
    [DiffCache] that owns two such indices, together with the properties
    the specification states about them.

    Conventions.  Go's [int64], [uint64] and [byte] values are integers of
    [Z] with the wrap-around of each conversion written out.  A byte slice
    is a [list Z] whose elements are bytes.  A Go map is a [gmap].  A
    run-time panic is the [None] of an [option]. *)

From Stdlib Require Import ZArith Lia.
From stdpp Require Import base option list sorting gmap strings.

Local Open Scope Z_scope.

(** ** Machine integers *)

Module Int.

Definition uint64 (z : Z) : Z := z mod 2 ^ 64.
Definition int64 (z : Z) : Z := (z + 2 ^ 63) mod 2 ^ 64 - 2 ^ 63.
Definition byte (z : Z) : Z := z mod 256.

Definition is_int64 (z : Z) : Prop := - 2 ^ 63 <= z < 2 ^ 63.
Definition is_uint64 (z : Z) : Prop := 0 <= z < 2 ^ 64.
Definition is_byte (z : Z) : Prop := 0 <= z < 256.

#[global] Instance is_int64_dec z : Decision (is_int64 z).
Proof. unfold is_int64. apply _. Defined.

#[global] Instance is_byte_dec z : Decision (is_byte z).
Proof. unfold is_byte. apply _. Defined.

End Int.
Import Int.

Ltac pow2 :=
  change (2 ^ 64) with 18446744073709551616 in *;
  change (2 ^ 63) with 9223372036854775808 in *;
  change (2 ^ 7) with 128 in *;
  change (2 ^ 1) with 2 in *.

Ltac zmod := pow2; Z.div_mod_to_equations; lia.

(** ** encoding/binary: variable-length integers

    The Go standard library functions the codec calls.  [PutUvarint]
    writes into a caller-supplied slice: the slice [buf[off:]] is the pair
    of the backing list [buf] and the offset [off], and an index outside
    the slice panics. *)

Module binary.

Definition MaxVarintLen64 : nat := 10.

(** The loop [for x >= 0x80 { buf[i] = byte(x) | 0x80; x >>= 7; i++ }]
    followed by [buf[i] = byte(x)].  A uint64 has ten groups of seven
    bits, so the loop body runs at most nine times; [fuel] bounds the
    number of bytes written. *)
Fixpoint PutUvarint_loop (fuel : nat) (buf : list Z) (i : nat) (x : Z)
  : option (list Z * nat) :=
  match fuel with
  | O => None
  | S fuel =>
      if 128 <=? x then
        if decide (i < length buf)%nat
        then PutUvarint_loop fuel (<[i := Z.lor (byte x) 128]> buf) (S i) (Z.shiftr x 7)
        else None
      else
        if decide (i < length buf)%nat
        then Some (<[i := byte x]> buf, S i)
        else None
  end.

(** [PutUvarint(buf[off:], x)]: the updated backing list and the number
    of bytes written. *)
Definition PutUvarint (buf : list Z) (off : nat) (x : Z) : option (list Z * nat) :=
  '(buf', i) ← PutUvarint_loop MaxVarintLen64 buf off x;
  Some (buf', (i - off)%nat).

(** [ux := uint64(x) << 1; if x < 0 { ux = ^ux }]. *)
Definition zigzag (x : Z) : Z :=
  let ux := uint64 (Z.shiftl (uint64 x) 1) in
  if x <? 0 then uint64 (Z.lnot ux) else ux.

Definition PutVarint (buf : list Z) (off : nat) (x : Z) : option (list Z * nat) :=
  PutUvarint buf off (zigzag x).

Inductive error : Set := EOF | ErrUnexpectedEOF | errOverflow.

#[global] Instance error_eq_dec : EqDecision error.
Proof. solve_decision. Defined.

(** [ReadUvarint] over a [bytes.Buffer] whose unread part is [r]: the
    value, the error (if any) and the bytes left unread.  [n] counts the
    iterations left of [for i := 0; i < MaxVarintLen64; i++]. *)
Fixpoint ReadUvarint_loop (n : nat) (i : nat) (x s : Z) (r : list Z)
  : Z * option error * list Z :=
  match n with
  | O => (x, Some errOverflow, r)
  | S n =>
      match r with
      | [] => (x, Some (if decide (0 < i)%nat then ErrUnexpectedEOF else EOF), r)
      | b :: r =>
          if b <? 128 then
            if decide (i = (MaxVarintLen64 - 1)%nat ∧ 1 < b)
            then (x, Some errOverflow, r)
            else (Z.lor x (uint64 (Z.shiftl b s)), None, r)
          else
            ReadUvarint_loop n (S i)
              (Z.lor x (uint64 (Z.shiftl (Z.land b 127) s))) (s + 7) r
      end
  end.

Definition ReadUvarint (r : list Z) : Z * option error * list Z :=
  ReadUvarint_loop MaxVarintLen64 0 0 0 r.

(** [x := int64(ux >> 1); if ux&1 != 0 { x = ^x }]. *)
Definition unzigzag (ux : Z) : Z :=
  let x := int64 (Z.shiftr ux 1) in
  if decide (Z.land ux 1 ≠ 0) then Z.lnot x else x.

Definition ReadVarint (r : list Z) : Z * option error * list Z :=
  let '(ux, err, r') := ReadUvarint r in
  (unzigzag ux, err, r').

End binary.
Import binary.

(** ** The delta codec *)

(** [tmp := make([]byte, len(buf)*2); copy(tmp, buf); buf = tmp]. *)
Definition grow (buf : list Z) : list Z :=
  buf ++ replicate (length buf) 0.

Fixpoint MarshalRefs_loop (refs : list Z) (buf : list Z) (lastRef : Z) (nextPos : nat)
  : option (list Z) :=
  match refs with
  | [] => if decide (nextPos ≤ length buf)%nat then Some (take nextPos buf) else None
  | ref :: refs =>
      let buf :=
        if decide (length buf - nextPos < MaxVarintLen64)%nat then grow buf else buf in
      '(buf, n) ← PutVarint buf nextPos (int64 (ref - lastRef));
      MarshalRefs_loop refs buf ref (nextPos + n)
  end.

Definition MarshalRefs (refs : list Z) : option (list Z) :=
  MarshalRefs_loop refs (replicate (length refs * 4 + MaxVarintLen64) 0) 0 0.

(** The loop of [UnmarshalRefs].  Every successful [ReadVarint] consumes
    a byte, so [S (length buf)] iterations always reach the end of the
    input ([UnmarshalRefs_loop_fuel]).  The second component is what the
    function hands to [log.Println]. *)
Fixpoint UnmarshalRefs_loop (fuel : nat) (r : list Z) (lastRef : Z) (refs : list Z)
  : list Z * list error :=
  match fuel with
  | O => (refs, [])
  | S fuel =>
      let '(ref, err, r') := ReadVarint r in
      match err with
      | Some EOF => (refs, [])
      | Some e => (refs, [e])
      | None =>
          let ref := int64 (lastRef + ref) in
          UnmarshalRefs_loop fuel r' ref (refs ++ [ref])
      end
  end.

Definition UnmarshalRefs_logged (buf : list Z) : list Z * list error :=
  UnmarshalRefs_loop (S (length buf)) buf 0 [].

Definition UnmarshalRefs (buf : list Z) : list Z := (UnmarshalRefs_logged buf).1.

(** The last element of a list, [d] for the empty list. *)
Definition last_def (d : Z) (l : list Z) : Z := default d (last l).

(** ** package sort *)

Module sort.

(** [sort.Search]: binary search for the smallest index in [[0, n)] at
    which [f] holds.  The interval [[i, j)] shrinks at every iteration, so
    [n] iterations always reach [i >= j]. *)
Fixpoint Search_loop (fuel : nat) (f : nat → bool) (i j : nat) : nat :=
  match fuel with
  | O => i
  | S fuel =>
      if decide (i < j)%nat then
        let h := ((i + j) `div` 2)%nat in
        if negb (f h) then Search_loop fuel f (h + 1)%nat j
        else Search_loop fuel f i h
      else i
  end.

Definition Search (n : nat) (f : nat → bool) : nat := Search_loop n f 0%nat n.

(** [sort.Sort(byInt64(refs))].  On integers the result of any sorting
    algorithm is the one ascending permutation of its input. *)
Definition Sort (refs : list Z) : list Z := merge_sort Z.le refs.

End sort.

(** ** The reference index *)

(** [insertRefs] probes [refs[i]] only for [i < len(refs)]
    ([Search_ext]); the default of the total lookup is never read. *)
Definition insertRefs (refs : list Z) (ref : Z) : list Z :=
  let i := sort.Search (length refs) (λ i, bool_decide (ref ≤ refs !!! i)) in
  if decide ((i < length refs)%nat ∧ ref ≤ refs !!! i) then
    (* refs = append(refs, 0) *)
    let refs := refs ++ [0] in
    (* copy(refs[i+1:], refs[i:]) *)
    let refs := take (S i) refs ++ take (length refs - S i) (drop i refs) in
    (* refs[i] = ref *)
    <[i := ref]> refs
  else refs ++ [ref].

Definition addToCache (buffer : gmap Z (list Z)) (id ref : Z) : gmap Z (list Z) :=
  let refs := match buffer !! id with Some refs => refs | None => [] end in
  <[id := insertRefs refs ref]> buffer.

(** Modelled from the spec: [idToKeyBuf] is defined in another file of the
    package; the big-endian fixed-width (eight bytes) encoding of the
    signed 64-bit id. *)
Definition idToKeyBuf (id : Z) : list Z :=
  reverse (Z_to_little_endian 8 8 (uint64 id)).

(** The store behind [index.db]: an ordered key-value store, here the
    finite map from keys to values.  [Get] of an absent key yields [nil]
    ([None]); a read error panics and ends the process, and is not part of
    the model.  [Write] applies a batch atomically or fails and applies
    nothing; whether it fails is the environment's choice [ok]. *)
Module levigo.

Inductive error : Set := IOError.

Definition Write (db : gmap (list Z) (list Z)) (batch : list (list Z * list Z))
    (ok : bool) : gmap (list Z) (list Z) * option error :=
  if ok then (foldl (λ db kv, <[kv.1 := kv.2]> db) db batch, None)
  else (db, Some IOError).

End levigo.

Definition loadAppendMarshal (db : gmap (list Z) (list Z)) (keyBuf : list Z)
    (newRefs : list Z) : option (list Z) :=
  let data := db !! keyBuf in
  (* var refs []int64; if data != nil { refs = UnmarshalRefs(data) } *)
  let refs := UnmarshalRefs <$> data in
  let refs :=
    match refs with
    | None => newRefs
    | Some refs => sort.Sort (refs ++ newRefs)
    end in
  MarshalRefs refs.

(** [for k := range idRefs { delete(idRefs, k) }]. *)
Definition clearRefs (idRefs : gmap Z (list Z)) : gmap Z (list Z) :=
  foldr delete idRefs (map_to_list idRefs).*1.

(** [writeRefs]: the store after the batch write, the emptied buffer the
    function offers to [refCaches], and the error it returns.  The
    workers fill the batch in an arbitrary order; the ids of a map are
    distinct, so are their keys, and the order does not matter
    ([Write_batch_order]). *)
Definition writeRefs (db : gmap (list Z) (list Z)) (ok : bool)
    (idRefs : gmap Z (list Z))
  : option (gmap (list Z) (list Z) * gmap Z (list Z) * option levigo.error) :=
  batch ← mapM (λ item : Z * list Z,
                  let keyBuf := idToKeyBuf item.1 in
                  data ← loadAppendMarshal db keyBuf item.2;
                  Some (keyBuf, data))
               (map_to_list idRefs);
  let '(db', err) := levigo.Write db batch ok in
  Some (db', clearRefs idRefs, err).

Definition Get (db : gmap (list Z) (list Z)) (id : Z) : list Z :=
  match db !! idToKeyBuf id with
  | Some data => UnmarshalRefs data
  | None => []
  end.

Definition cacheSize : Z := 64 * 1024.

(** *** The pipeline

    One index and the process-wide pool [refCaches].  Channels are
    queues; [addc] has capacity 1024, [writec] capacity 2 and a send
    blocks while its queue is full.  [refCaches] has capacity 1: its
    queue holds the buffer in the slot followed by those of the senders
    blocked on it. *)

Record idRef := IdRef { idRef_id : Z; idRef_ref : Z }.

Record RefIndex := mkRefIndex {
  db : gmap (list Z) (list Z);
  dbOpen : bool;
  buffer : gmap Z (list Z);
  writec : list (gmap Z (list Z));
  addc : list idRef;
  addClosed : bool;
  writeClosed : bool;
  waitAdd : bool;        (* true while [dispatch] runs *)
  waitWrite : bool;      (* true while [writer] runs *)
  logged : list levigo.error;
  refCaches : list (gmap Z (list Z))
}.

(** [NewRefIndex] on a store holding [db0], with the pool as it is. *)
Definition NewRefIndex (db0 : gmap (list Z) (list Z))
    (pool : list (gmap Z (list Z))) : RefIndex :=
  {| db := db0; dbOpen := true; buffer := ∅; writec := []; addc := [];
     addClosed := false; writeClosed := false;
     waitAdd := true; waitWrite := true; logged := []; refCaches := pool |}.

(** One iteration of the loop of [dispatch]: the live buffer, the
    buffers handed to [writec] and the pool afterwards. *)
Definition dispatch_iter (buf : gmap Z (list Z)) (pool : list (gmap Z (list Z)))
    (e : idRef)
  : gmap Z (list Z) * list (gmap Z (list Z)) * list (gmap Z (list Z)) :=
  let buf := addToCache buf (idRef_id e) (idRef_ref e) in
  if decide (cacheSize ≤ Z.of_nat (size buf)) then
    match pool with
    | b :: pool => (b, [buf], pool)
    | [] => (∅, [buf], [])
    end
  else (buf, [], pool).

(** The end of [dispatch], once [addc] is closed and drained. *)
Definition dispatch_end (buf : gmap Z (list Z))
  : gmap Z (list Z) * list (gmap Z (list Z)) :=
  if decide (0 < size buf)%nat then (∅, [buf]) else (buf, []).

(** One iteration of the loop of [writer].  A panic of [writeRefs] is
    [None]. *)
Definition writer_iter (x : RefIndex) (ok : bool) (buf : gmap Z (list Z))
  : option RefIndex :=
  '(db', cleared, err) ← writeRefs (db x) ok buf;
  Some {| db := db'; dbOpen := dbOpen x; buffer := buffer x;
          writec := writec x; addc := addc x;
          addClosed := addClosed x; writeClosed := writeClosed x;
          waitAdd := waitAdd x; waitWrite := waitWrite x;
          logged := logged x ++ match err with Some e => [e] | None => [] end;
          refCaches := refCaches x ++ [cleared] |}.

(** [writer] on a closed channel holding [bufs], the outcome of the
    i-th batch write being the i-th element of [oks] (a write succeeds
    when [oks] is exhausted). *)
Fixpoint writer (x : RefIndex) (bufs : list (gmap Z (list Z))) (oks : list bool)
  : option RefIndex :=
  match bufs with
  | [] => Some x
  | buf :: bufs =>
      x ← writer_iter x (default true (head oks)) buf;
      writer x bufs (tail oks)
  end.

(** The steps of the goroutines around one index.  [Close] is the three
    steps [CloseAdd] ([close(index.add)]), [CloseWrite] (after
    [waitAdd.Wait()], [close(index.write)]) and [CloseDb] (after
    [waitWrite.Wait()], [index.cache.Close()]). *)
Inductive event :=
  | Add (e : idRef)          (* a caller: index.add <- idRef{id, ref} *)
  | Dispatch                 (* dispatch: one iteration *)
  | DispatchEnd              (* dispatch: after the loop *)
  | Write (ok : bool)        (* writer: one iteration *)
  | WriterEnd                (* writer: after the loop *)
  | CloseAdd
  | CloseWrite
  | CloseDb
  | Offer (b : gmap Z (list Z))   (* another index recycles a flushed buffer *)
  | Take.                         (* another index takes the pooled buffer *)

Definition exec (x : RefIndex) (ev : event) : option RefIndex :=
  match ev with
  | Add e =>
      guard (addClosed x = false);;
      guard (length (addc x) < 1024)%nat;;
      guard (is_int64 (idRef_id e) ∧ is_int64 (idRef_ref e));;
      Some {| db := db x; dbOpen := dbOpen x; buffer := buffer x;
              writec := writec x; addc := addc x ++ [e];
              addClosed := addClosed x; writeClosed := writeClosed x;
              waitAdd := waitAdd x; waitWrite := waitWrite x;
              logged := logged x; refCaches := refCaches x |}
  | Dispatch =>
      guard (waitAdd x = true);;
      match addc x with
      | [] => None
      | e :: rest =>
          let '(buf, out, pool) := dispatch_iter (buffer x) (refCaches x) e in
          guard (length (writec x ++ out) ≤ 2)%nat;;
          Some {| db := db x; dbOpen := dbOpen x; buffer := buf;
                  writec := writec x ++ out; addc := rest;
                  addClosed := addClosed x; writeClosed := writeClosed x;
                  waitAdd := waitAdd x; waitWrite := waitWrite x;
                  logged := logged x; refCaches := pool |}
      end
  | DispatchEnd =>
      guard (waitAdd x = true ∧ addClosed x = true ∧ addc x = []);;
      let '(buf, out) := dispatch_end (buffer x) in
      guard (length (writec x ++ out) ≤ 2)%nat;;
      Some {| db := db x; dbOpen := dbOpen x; buffer := buf;
              writec := writec x ++ out; addc := addc x;
              addClosed := addClosed x; writeClosed := writeClosed x;
              waitAdd := false; waitWrite := waitWrite x;
              logged := logged x; refCaches := refCaches x |}
  | Write ok =>
      guard (waitWrite x = true);;
      match writec x with
      | [] => None
      | buf :: rest =>
          writer_iter
            {| db := db x; dbOpen := dbOpen x; buffer := buffer x;
               writec := rest; addc := addc x;
               addClosed := addClosed x; writeClosed := writeClosed x;
               waitAdd := waitAdd x; waitWrite := waitWrite x;
               logged := logged x; refCaches := refCaches x |} ok buf
      end
  | WriterEnd =>
      guard (waitWrite x = true ∧ writeClosed x = true ∧ writec x = []);;
      Some {| db := db x; dbOpen := dbOpen x; buffer := buffer x;
              writec := writec x; addc := addc x;
              addClosed := addClosed x; writeClosed := writeClosed x;
              waitAdd := waitAdd x; waitWrite := false;
              logged := logged x; refCaches := refCaches x |}
  | CloseAdd =>
      guard (addClosed x = false);;
      Some {| db := db x; dbOpen := dbOpen x; buffer := buffer x;
              writec := writec x; addc := addc x;
              addClosed := true; writeClosed := writeClosed x;
              waitAdd := waitAdd x; waitWrite := waitWrite x;
              logged := logged x; refCaches := refCaches x |}
  | CloseWrite =>
      guard (addClosed x = true ∧ waitAdd x = false ∧ writeClosed x = false);;
      Some {| db := db x; dbOpen := dbOpen x; buffer := buffer x;
              writec := writec x; addc := addc x;
              addClosed := addClosed x; writeClosed := true;
              waitAdd := waitAdd x; waitWrite := waitWrite x;
              logged := logged x; refCaches := refCaches x |}
  | CloseDb =>
      guard (writeClosed x = true ∧ waitWrite x = false ∧ dbOpen x = true);;
      Some {| db := db x; dbOpen := false; buffer := buffer x;
              writec := writec x; addc := addc x;
              addClosed := addClosed x; writeClosed := writeClosed x;
              waitAdd := waitAdd x; waitWrite := waitWrite x;
              logged := logged x; refCaches := refCaches x |}
  | Offer b =>
      Some {| db := db x; dbOpen := dbOpen x; buffer := buffer x;
              writec := writec x; addc := addc x;
              addClosed := addClosed x; writeClosed := writeClosed x;
              waitAdd := waitAdd x; waitWrite := waitWrite x;
              logged := logged x; refCaches := refCaches x ++ [clearRefs b] |}
  | Take =>
      Some {| db := db x; dbOpen := dbOpen x; buffer := buffer x;
              writec := writec x; addc := addc x;
              addClosed := addClosed x; writeClosed := writeClosed x;
              waitAdd := waitAdd x; waitWrite := waitWrite x;
              logged := logged x; refCaches := tail (refCaches x) |}
  end.

Fixpoint run (x : RefIndex) (evs : list event) : option RefIndex :=
  match evs with
  | [] => Some x
  | ev :: evs => x ← exec x ev; run x evs
  end.

(** The entries accepted by [add], in order, and the refs among them
    recorded against one id. *)
Definition accepted (evs : list event) : list idRef :=
  omap (λ ev, match ev with Add e => Some e | _ => None end) evs.

Definition refsOf (id : Z) (es : list idRef) : list Z :=
  idRef_ref <$> filter (λ e, idRef_id e = id) es.

Definition writesOk (evs : list event) : Prop :=
  Forall (λ ev, match ev with Write ok => ok = true | _ => True end) evs.

(** ** The diff cache

    The lifecycle of a [DiffCache] touches its two indices only through
    [NewCoordsRefIndex], [NewWaysRefIndex] and [Close], and the file
    system through [os.Stat] and [os.RemoveAll].  The world it runs in is
    the set of store directories on disk and the stores held open; an
    index is the path of its store.  Whether opening a store or removing
    a directory fails is the environment's choice, an argument of the
    operation. *)

Module os.

Inductive error : Set := ErrOpen | ErrRemove.

Record World := mkWorld {
  dirs : gset string;
  openStores : list string
}.

(** [filepath.Join(dir, name)], for a [dir] already clean. *)
Definition Join (dir name : string) : string :=
  if decide (dir = "") then name else dir +:+ "/" +:+ name.

Definition RemoveAll (w : World) (path : string) (fail : option error)
  : World * option error :=
  match fail with
  | Some e => (w, Some e)
  | None => (mkWorld (dirs w ∖ {[path]}) (openStores w), None)
  end.

(** [_, err := os.Stat(path); !os.IsNotExist(err)], on a file system where
    [os.Stat] fails only for a path that is missing.  The source answers
    true as well when [os.Stat] fails for another reason (no permission, a
    path component that is no directory); that outcome is not modelled, so
    only "on disk implies true" carries over to the source. *)
Definition StatExists (w : World) (path : string) : bool :=
  bool_decide (path ∈ dirs w).

End os.

Module DC.
Import os.

Record DiffCache := mkDiffCache {
  Dir : string;
  Coords : option string;     (* *CoordsRefIndex, nil is None *)
  Ways : option string;       (* *WaysRefIndex, nil is None *)
  opened : bool
}.

(** [NewRefIndex(path, opts)]: [index.open] creates the store when it is
    missing; on failure the result is [nil, err]. *)
Definition NewRefIndex (w : World) (path : string) (fail : option error)
  : World * (string + error) :=
  match fail with
  | Some e => (w, inr e)
  | None => (mkWorld ({[path]} ∪ dirs w) (path :: openStores w), inl path)
  end.

Definition NewCoordsRefIndex := NewRefIndex.
Definition NewWaysRefIndex := NewRefIndex.

Fixpoint release (path : string) (stores : list string) : list string :=
  match stores with
  | [] => []
  | p :: stores => if decide (p = path) then stores else p :: release path stores
  end.

(** [RefIndex.Close]: drains the pipeline and releases the store. *)
Definition RefIndex_Close (w : World) (path : string) : World :=
  mkWorld (dirs w) (release path (openStores w)).

Definition Close (w : World) (c : DiffCache) : World * DiffCache :=
  let '(w, c) :=
    match Coords c with
    | Some i => (RefIndex_Close w i, mkDiffCache (Dir c) None (Ways c) (opened c))
    | None => (w, c)
    end in
  match Ways c with
  | Some i => (RefIndex_Close w i, mkDiffCache (Dir c) (Coords c) None (opened c))
  | None => (w, c)
  end.

Definition NewDiffCache (dir : string) : DiffCache :=
  mkDiffCache dir None None false.

Definition Open (w : World) (c : DiffCache) (failCoords failWays : option error)
  : World * DiffCache * option error :=
  match NewCoordsRefIndex w (Join (Dir c) "coords_index") failCoords with
  | (w, inr err) =>
      let c := mkDiffCache (Dir c) None (Ways c) (opened c) in
      let '(w, c) := Close w c in
      (w, c, Some err)
  | (w, inl i) =>
      let c := mkDiffCache (Dir c) (Some i) (Ways c) (opened c) in
      match NewWaysRefIndex w (Join (Dir c) "ways_index") failWays with
      | (w, inr err) =>
          let c := mkDiffCache (Dir c) (Coords c) None (opened c) in
          let '(w, c) := Close w c in
          (w, c, Some err)
      | (w, inl j) =>
          (w, mkDiffCache (Dir c) (Coords c) (Some j) true, None)
      end
  end.

Definition Exists (w : World) (c : DiffCache) : bool :=
  if opened c then true
  else if StatExists w (Join (Dir c) "coords_index") then true
  else if StatExists w (Join (Dir c) "ways_index") then true
  else false.

Definition Remove (w : World) (c : DiffCache) (failCoords failWays : option error)
  : World * DiffCache * option error :=
  let '(w, c) := if opened c then Close w c else (w, c) in
  match RemoveAll w (Join (Dir c) "coords_index") failCoords with
  | (w, Some err) => (w, c, Some err)
  | (w, None) =>
      match RemoveAll w (Join (Dir c) "ways_index") failWays with
      | (w, Some err) => (w, c, Some err)
      | (w, None) => (w, c, None)
      end
  end.

(** What the owner of a cache can do with it. *)
Inductive op :=
  | OpOpen (failCoords failWays : option error)
  | OpClose
  | OpRemove (failCoords failWays : option error).

Definition step (wc : World * DiffCache) (o : op) : World * DiffCache :=
  match o with
  | OpOpen f g => (Open wc.1 wc.2 f g).1
  | OpClose => Close wc.1 wc.2
  | OpRemove f g => (Remove wc.1 wc.2 f g).1
  end.

Definition steps (wc : World * DiffCache) (ops : list op) : World * DiffCache :=
  foldl step wc ops.

End DC.

(** *** The encoding in the specification's words

    Each difference from the previous value (the first from zero) is mapped
    by [(v << 1) XOR (v >> 63)] to an unsigned integer, which is emitted
    seven bits at a time, least-significant group first, with the
    continuation bit set on all but the final byte. *)

Fixpoint uvarint_bytes (n : nat) (x : Z) : list Z :=
  match n with
  | O => []
  | S n => if 128 <=? x then (128 + x mod 128) :: uvarint_bytes n (x / 128) else [x]
  end.

Definition zigzag_spec (v : Z) : Z :=
  uint64 (Z.lxor (Z.shiftl v 1) (Z.shiftr v 63)).

Fixpoint encodeRefs (last : Z) (refs : list Z) : list Z :=
  match refs with
  | [] => []
  | ref :: refs =>
      uvarint_bytes MaxVarintLen64 (zigzag_spec (int64 (ref - last)))
        ++ encodeRefs ref refs
  end.

(** The differences [MarshalRefs] encodes, and the value of a group of
    seven-bit digits, least-significant first. *)
Fixpoint deltas (last : Z) (refs : list Z) : list Z :=
  match refs with
  | [] => []
  | ref :: refs => int64 (ref - last) :: deltas ref refs
  end.

Definition base128 (bs : list Z) : Z :=
  foldr (λ b acc, b mod 128 + 128 * acc) 0 bs.

Definition varint_spec (d : Z) : list Z :=
  uvarint_bytes MaxVarintLen64 (zigzag_spec d).

(** ** The facades

    Modelled from the spec: the package [element] is not among the sources
    at hand.  A way has an id and its member nodes in order, each with an
    id; a member of a relation has an id and the type of what it refers
    to.  Only the fields the index reads are kept. *)
Module element.

Inductive MemberType : Set := NODE | WAY | RELATION.

#[global] Instance MemberType_eq_dec : EqDecision MemberType.
Proof. solve_decision. Defined.

Record Node := mkNode { Node_Id : Z }.
Record Way := mkWay { Way_Id : Z; Nodes : list Node }.
Record Member := mkMember { Member_Id : Z; Member_Type : MemberType }.

End element.

(** [AddFromWay] and [AddFromMembers] send on [index.add]: the sends of
    one call, in order.  Other steps of the pipeline may run between two
    of them. *)
Definition AddFromWay (way : element.Way) : list event :=
  (λ node, Add (IdRef (element.Node_Id node) (element.Way_Id way)))
    <$> element.Nodes way.

Definition AddFromMembers (relId : Z) (members : list element.Member) : list event :=
  omap (λ member,
          if decide (element.Member_Type member = element.WAY)
          then Some (Add (IdRef (element.Member_Id member) relId))
          else None) members.

(** ** Predicates of the proofs *)

(** The list [loadAppendMarshal] encodes. *)
Definition mergedRefs (db : gmap (list Z) (list Z)) (keyBuf : list Z)
    (newRefs : list Z) : list Z :=
  match db !! keyBuf with
  | None => newRefs
  | Some data => sort.Sort (UnmarshalRefs data ++ newRefs)
  end.

(** A buffer as [addToCache] builds it: int64 ids, ascending int64
    refs. *)
Definition buffer_ok (b : gmap Z (list Z)) : Prop :=
  map_Forall (λ id refs,
    is_int64 id ∧ Forall is_int64 refs ∧ StronglySorted Z.le refs) b.

(** A store as [writeRefs] leaves it: every value is the encoding of an
    ascending list of int64 refs. *)
Definition db_ok (db : gmap (list Z) (list Z)) : Prop :=
  map_Forall (λ _ data, ∃ refs,
    data = encodeRefs 0 refs ∧ Forall is_int64 refs ∧ StronglySorted Z.le refs) db.

(** The refs of [id] a buffer holds. *)
Definition refsIn (id : Z) (b : gmap Z (list Z)) : list Z := default [] (b !! id).

(** The refs of [id] accepted and not yet written. *)
Definition pendingRefs (x : RefIndex) (id : Z) : list Z :=
  concat (refsIn id <$> writec x) ++ refsIn id (buffer x) ++ refsOf id (addc x).

Record Inv (x : RefIndex) : Prop := mkInv {
  inv_db : db_ok (db x);
  inv_buffer : buffer_ok (buffer x);
  inv_writec : Forall buffer_ok (writec x);
  inv_addc : Forall (λ e, is_int64 (idRef_id e) ∧ is_int64 (idRef_ref e)) (addc x);
  inv_pool : Forall (λ b, b = ∅) (refCaches x);
  inv_size : Z.of_nat (size (buffer x)) < cacheSize;
  inv_waitAdd : waitAdd x = false → addClosed x = true ∧ addc x = [] ∧ buffer x = ∅;
  inv_writeClosed : writeClosed x = true → waitAdd x = false;
  inv_waitWrite : waitWrite x = false → writeClosed x = true ∧ writec x = [];
  inv_dbOpen : dbOpen x = false → waitWrite x = false
}.

(** What the store and the pipeline hold of [id] is what was in the store
    at the start and what [add] accepted since. *)
Definition DataInv (db0 : gmap (list Z) (list Z)) (hist : list idRef)
    (x : RefIndex) : Prop :=
  ∀ id, is_int64 id →
    Get (db x) id ++ pendingRefs x id ≡ₚ Get db0 id ++ refsOf id hist.

(** The pool and the size of the live buffer, whatever the store holds. *)
Definition PoolInv (x : RefIndex) : Prop :=
  Forall (λ b, b = ∅) (refCaches x) ∧ Z.of_nat (size (buffer x)) < cacheSize.

(** What is left to do before [Close] returns. *)
Definition todo (x : RefIndex) : nat :=
  (2 * length (addc x) + length (writec x)
   + (if addClosed x then 0 else 1) + (if waitAdd x then 2 else 0)
   + (if writeClosed x then 0 else 1) + (if waitWrite x then 1 else 0)
   + (if dbOpen x then 1 else 0))%nat.

(** A sequence of flushes of one store. *)
Fixpoint flushAll (db : gmap (list Z) (list Z)) (bufs : list (gmap Z (list Z)))
  : option (gmap (list Z) (list Z)) :=
  match bufs with
  | [] => Some db
  | b :: bufs => r ← writeRefs db true b; flushAll r.1.1 bufs
  end.

(* ===================================================================== *)
(** * Properties *)
(* ===================================================================== *)

(** ** Machine arithmetic *)

Lemma int64_is_int64 z : is_int64 (int64 z).
Proof. unfold is_int64, int64. zmod. Qed.

Lemma int64_id z : is_int64 z → int64 z = z.
Proof. unfold is_int64, int64. intros. zmod. Qed.

Lemma uint64_id z : is_uint64 z → uint64 z = z.
Proof. unfold is_uint64, uint64. intros. zmod. Qed.

Lemma int64_delta last ref :
  is_int64 ref → int64 (last + int64 (ref - last)) = ref.
Proof. unfold is_int64, int64. intros. zmod. Qed.

Lemma byte_forall (P : Z → bool) :
  forallb P (seqZ 0 256) = true → ∀ b, is_byte b → P b = true.
Proof.
  intros HP b Hb. rewrite forallb_forall in HP. apply HP.
  apply list_elem_of_In, elem_of_seqZ. unfold is_byte in Hb. lia.
Qed.

Lemma lor_byte_128 x : Z.lor (byte x) 128 = 128 + x mod 128.
Proof.
  unfold byte.
  assert (Hb : is_byte (x mod 256)) by (unfold is_byte; zmod).
  assert (Hm : x mod 128 = (x mod 256) mod 128) by zmod.
  rewrite Hm.
  apply Z.eqb_eq.
  apply (byte_forall (λ b, Z.lor b 128 =? 128 + b mod 128)); [|done].
  by vm_compute.
Qed.

Lemma land_127 b : Z.land b 127 = b mod 128.
Proof. change 127 with (Z.ones 7). by rewrite Z.land_ones by lia. Qed.

Lemma land_1 b : Z.land b 1 = b mod 2.
Proof. change 1 with (Z.ones 1) at 1. by rewrite Z.land_ones by lia. Qed.

Lemma lor_disjoint a c s :
  0 ≤ s → 0 ≤ a < 2 ^ s → Z.lor a (c * 2 ^ s) = a + c * 2 ^ s.
Proof.
  intros Hs Ha. symmetry. apply Z.add_nocarry_lor.
  apply Z.bits_inj'. intros n Hn. rewrite Z.land_spec, Z.bits_0.
  destruct (decide (n < s)).
  - rewrite Z.mul_pow2_bits_low by lia. apply andb_false_r.
  - assert (Z.testbit a n = false) as ->; [|done].
    apply (Z.bounded_iff_bits_nonneg s a); lia.
Qed.

(** ** Zigzag *)

Lemma zigzag_value x :
  is_int64 x → zigzag x = if x <? 0 then - 2 * x - 1 else 2 * x.
Proof.
  unfold is_int64, zigzag, uint64. intros Hx.
  rewrite Z.shiftl_mul_pow2 by lia. unfold Z.lnot.
  destruct (Z.ltb_spec x 0); zmod.
Qed.

Lemma zigzag_is_uint64 x : is_int64 x → is_uint64 (zigzag x).
Proof.
  intros Hx. rewrite zigzag_value by done. unfold is_int64, is_uint64 in *.
  destruct (Z.ltb_spec x 0); pow2; lia.
Qed.

Lemma zigzag_spec_eq x : is_int64 x → zigzag_spec x = zigzag x.
Proof.
  intros Hx. rewrite zigzag_value by done. unfold zigzag_spec, uint64, is_int64 in *.
  rewrite Z.shiftl_mul_pow2, Z.shiftr_div_pow2 by lia.
  destruct (Z.ltb_spec x 0).
  - assert (x / 2 ^ 63 = -1) as -> by zmod.
    rewrite Z.lxor_m1_r. unfold Z.lnot. zmod.
  - assert (x / 2 ^ 63 = 0) as -> by zmod.
    rewrite Z.lxor_0_r. zmod.
Qed.

Lemma unzigzag_zigzag x : is_int64 x → unzigzag (zigzag x) = x.
Proof.
  intros Hx. rewrite zigzag_value by done. unfold unzigzag, int64, is_int64 in *.
  rewrite Z.shiftr_div_pow2 by lia.
  rewrite land_1. unfold Z.lnot.
  destruct (Z.ltb_spec x 0); case_decide; zmod.
Qed.


(** ** Variable-length integers *)

Lemma uvarint_bytes_length n x : (length (uvarint_bytes n x) ≤ n)%nat.
Proof.
  revert x. induction n as [|n IH]; intros x; simpl; [lia|].
  destruct (128 <=? x); simpl; [specialize (IH (x / 128))|]; lia.
Qed.

Lemma uvarint_bytes_nonempty n x : uvarint_bytes (S n) x ≠ [].
Proof. simpl. by destruct (128 <=? x). Qed.

(** Every emitted byte but the last carries the continuation bit, the
    last one does not. *)
Lemma uvarint_bytes_shape n x :
  0 ≤ x < 2 ^ (7 * Z.of_nat (S n)) →
  ∃ front final,
    uvarint_bytes (S n) x = front ++ [final]
    ∧ Forall (λ b, 128 ≤ b < 256) front ∧ 0 ≤ final < 128.
Proof.
  revert x. induction n as [|n IH]; intros x Hx.
  - exists [], x. simpl. change (2 ^ (7 * Z.of_nat 1)) with 128 in Hx.
    destruct (Z.leb_spec 128 x); [lia|]. split; [done|]. split; [apply Forall_nil_2|lia].
  - change (uvarint_bytes (S (S n)) x) with
      (if 128 <=? x then (128 + x mod 128) :: uvarint_bytes (S n) (x / 128) else [x]).
    destruct (Z.leb_spec 128 x).
    + destruct (IH (x / 128)) as (front & final & -> & Hf & Hl).
      { replace (7 * Z.of_nat (S (S n))) with (7 + 7 * Z.of_nat (S n)) in Hx by lia.
        rewrite Z.pow_add_r in Hx by lia. pow2. split; [zmod|].
        apply Z.div_lt_upper_bound; lia. }
      exists ((128 + x mod 128) :: front), final.
      split; [done|]. split; [|done].
      apply Forall_cons_2; [zmod|done].
    + exists [], x. split; [done|]. split; [apply Forall_nil_2|lia].
Qed.

Lemma ReadUvarint_loop_cons n i x s b r :
  ReadUvarint_loop (S n) i x s (b :: r) =
  if b <? 128 then
    if decide (i = (MaxVarintLen64 - 1)%nat ∧ 1 < b)
    then (x, Some errOverflow, r)
    else (Z.lor x (uint64 (Z.shiftl b s)), None, r)
  else
    ReadUvarint_loop n (S i) (Z.lor x (uint64 (Z.shiftl (Z.land b 127) s))) (s + 7) r.
Proof. done. Qed.

Lemma ReadUvarint_loop_bytes n : ∀ (i : nat) acc y rest,
  (S n + i = MaxVarintLen64)%nat →
  0 ≤ acc < 2 ^ (7 * Z.of_nat i) → 0 ≤ y →
  acc + y * 2 ^ (7 * Z.of_nat i) < 2 ^ 64 →
  ReadUvarint_loop (S n) i acc (7 * Z.of_nat i) (uvarint_bytes (S n) y ++ rest)
  = (acc + y * 2 ^ (7 * Z.of_nat i), None, rest).
Proof.
  unfold MaxVarintLen64.
  induction n as [|n IH]; intros i acc y rest Hn Hacc Hy Hlt.
  - assert (i = 9%nat) as -> by lia.
    change (2 ^ (7 * Z.of_nat 9)) with (2 ^ 63) in *.
    assert (y ≤ 1) by (pow2; lia).
    simpl. destruct (Z.leb_spec 128 y); [lia|]. simpl.
    destruct (Z.ltb_spec y 128); [|lia].
    case_decide; [lia|].
    rewrite Z.shiftl_mul_pow2, uint64_id, lor_disjoint by (unfold is_uint64; pow2; lia).
    done.
  - set (P := 2 ^ (7 * Z.of_nat i)) in *.
    assert (HP : 0 < P) by (apply Z.pow_pos_nonneg; lia).
    change (uvarint_bytes (S (S n)) y) with
      (if 128 <=? y then (128 + y mod 128) :: uvarint_bytes (S n) (y / 128) else [y]).
    destruct (Z.leb_spec 128 y).
    + cbn [app]. rewrite ReadUvarint_loop_cons.
      destruct (Z.ltb_spec (128 + y mod 128) 128); [zmod|].
      rewrite land_127.
      assert ((128 + y mod 128) mod 128 = y mod 128) as -> by zmod.
      assert (Hm : 0 ≤ y mod 128 < 128) by zmod.
      assert (Hy' : y = 128 * (y / 128) + y mod 128) by zmod.
      assert (Hq : 0 ≤ y / 128) by zmod.
      rewrite Z.shiftl_mul_pow2 by lia. fold P.
      rewrite uint64_id by (unfold is_uint64; nia).
      unfold P at 1. rewrite lor_disjoint by lia. fold P.
      replace (7 * Z.of_nat i + 7) with (7 * Z.of_nat (S i)) by lia.
      assert (HP' : 2 ^ (7 * Z.of_nat (S i)) = 128 * P).
      { replace (7 * Z.of_nat (S i)) with (7 + 7 * Z.of_nat i) by lia.
        by rewrite Z.pow_add_r by lia. }
      rewrite IH; [|lia|rewrite HP'; nia|lia|rewrite HP'; nia].
      rewrite HP'. do 2 f_equal. nia.
    + cbn [app]. rewrite ReadUvarint_loop_cons.
      destruct (Z.ltb_spec y 128); [|lia].
      case_decide as Hov.
      { destruct Hov as [Hi ?].
        assert (HP63 : P = 2 ^ 63) by (unfold P; by rewrite Hi).
        clearbody P. subst P. pow2. lia. }
      rewrite Z.shiftl_mul_pow2 by lia. fold P.
      rewrite uint64_id by (unfold is_uint64; nia).
      unfold P. by rewrite lor_disjoint by lia.
Qed.

Lemma ReadUvarint_bytes x rest :
  is_uint64 x →
  ReadUvarint (uvarint_bytes MaxVarintLen64 x ++ rest) = (x, None, rest).
Proof.
  intros Hx. unfold ReadUvarint, is_uint64 in *.
  pose proof (ReadUvarint_loop_bytes 9 0 0 x rest) as H.
  change (7 * Z.of_nat 0) with 0 in H. change (2 ^ 0) with 1 in H.
  rewrite Z.mul_1_r in H. apply H; [done|lia..].
Qed.

Lemma ReadVarint_bytes v rest :
  is_int64 v →
  ReadVarint (uvarint_bytes MaxVarintLen64 (zigzag v) ++ rest) = (v, None, rest).
Proof.
  intros Hv. unfold ReadVarint.
  rewrite ReadUvarint_bytes by by apply zigzag_is_uint64.
  by rewrite unzigzag_zigzag.
Qed.

(** ** Writing into the buffer *)

Lemma PutUvarint_loop_S fuel buf i x :
  PutUvarint_loop (S fuel) buf i x =
  if 128 <=? x then
    if decide (i < length buf)%nat
    then PutUvarint_loop fuel (<[i := Z.lor (byte x) 128]> buf) (S i) (Z.shiftr x 7)
    else None
  else
    if decide (i < length buf)%nat then Some (<[i := byte x]> buf, S i) else None.
Proof. done. Qed.

Lemma insert_at_end (pre : list Z) j junk b :
  <[length pre := b]> (pre ++ j :: junk) = (pre ++ [b]) ++ junk.
Proof.
  replace (length pre) with (length pre + 0)%nat by lia.
  rewrite insert_app_r. simpl. by rewrite <- app_assoc.
Qed.

(** With room for [S n] bytes after [pre], [PutUvarint] does not panic and
    writes exactly the bytes of the specification after [pre]. *)
Lemma PutUvarint_loop_bytes n : ∀ (pre junk : list Z) x,
  0 ≤ x < 2 ^ (7 * Z.of_nat (S n)) →
  (S n ≤ length junk)%nat →
  ∃ junk',
    PutUvarint_loop (S n) (pre ++ junk) (length pre) x
    = Some (pre ++ uvarint_bytes (S n) x ++ junk',
            (length pre + length (uvarint_bytes (S n) x))%nat)
    ∧ (length (uvarint_bytes (S n) x) + length junk' = length junk)%nat.
Proof.
  induction n as [|n IH]; intros pre junk x Hx Hlen;
    (destruct junk as [|j junk]; [simpl in Hlen; lia|]);
    rewrite PutUvarint_loop_S;
    change (uvarint_bytes (S ?m) x) with
      (if 128 <=? x then (128 + x mod 128) :: uvarint_bytes m (x / 128) else [x]);
    (assert (Hin : (length pre < length (pre ++ j :: junk))%nat)
      by (rewrite length_app; simpl; lia));
    (destruct (Z.leb_spec 128 x)); (destruct (decide _); [|done]).
  - change (2 ^ (7 * Z.of_nat 1)) with 128 in Hx. lia.
  - change (2 ^ (7 * Z.of_nat 1)) with 128 in Hx.
    exists junk. rewrite insert_at_end, <- app_assoc. unfold byte.
    rewrite Z.mod_small by lia. split; [|done]. do 2 f_equal. simpl. lia.
  - rewrite insert_at_end, lor_byte_128, Z.shiftr_div_pow2 by lia. pow2.
    replace (S (length pre)) with (length (pre ++ [128 + x mod 128]))
      by (rewrite length_app; simpl; lia).
    destruct (IH (pre ++ [128 + x mod 128]) junk (x / 128)) as (junk' & -> & Hl).
    { replace (7 * Z.of_nat (S (S n))) with (7 + 7 * Z.of_nat (S n)) in Hx by lia.
      rewrite Z.pow_add_r in Hx by lia. pow2. split; [zmod|].
      apply Z.div_lt_upper_bound; lia. }
    { simpl in Hlen. lia. }
    exists junk'. rewrite <- app_assoc, length_app. cbn [app length].
    split; [do 2 f_equal; lia | lia].
  - exists junk. rewrite insert_at_end, <- app_assoc. unfold byte.
    rewrite Z.mod_small by lia. split; [|done]. do 2 f_equal. simpl. lia.
Qed.

Lemma PutVarint_bytes (pre junk : list Z) v :
  is_int64 v →
  (MaxVarintLen64 ≤ length junk)%nat →
  ∃ junk',
    PutVarint (pre ++ junk) (length pre) v
    = Some (pre ++ uvarint_bytes MaxVarintLen64 (zigzag v) ++ junk',
            length (uvarint_bytes MaxVarintLen64 (zigzag v)))
    ∧ (length (uvarint_bytes MaxVarintLen64 (zigzag v)) + length junk'
       = length junk)%nat.
Proof.
  intros Hv Hlen. unfold PutVarint, PutUvarint.
  change MaxVarintLen64 with 10%nat in *.
  destruct (PutUvarint_loop_bytes 9 pre junk (zigzag v)) as (junk' & -> & Hl).
  - pose proof (zigzag_is_uint64 v Hv) as Hu. unfold is_uint64 in Hu.
    change (2 ^ (7 * Z.of_nat 10)) with (2 ^ 64 * 64). pow2. lia.
  - done.
  - exists junk'. simpl. split; [|done]. do 3 f_equal. lia.
Qed.

(** ** MarshalRefs *)

Lemma MarshalRefs_loop_encode refs : ∀ (pre junk : list Z) last,
  (MaxVarintLen64 ≤ length pre + length junk)%nat →
  MarshalRefs_loop refs (pre ++ junk) last (length pre)
  = Some (pre ++ encodeRefs last refs).
Proof.
  induction refs as [|ref refs IH]; intros pre junk last Hlen.
  - simpl. rewrite decide_True by (rewrite length_app; lia).
    by rewrite take_app_length, app_nil_r.
  - cbn [MarshalRefs_loop encodeRefs].
    set (buf := if decide _ then _ else _).
    assert (∃ junk0, buf = pre ++ junk0 ∧ (MaxVarintLen64 ≤ length junk0)%nat
                     ∧ (length junk ≤ length junk0)%nat)
      as (junk0 & -> & Hj0 & Hjj).
    { unfold buf. case_decide as Hd.
      - exists (junk ++ replicate (length (pre ++ junk)) 0).
        unfold grow. rewrite <- app_assoc. split; [done|].
        rewrite length_app, length_replicate, length_app. lia.
      - exists junk. rewrite length_app in Hd. split; [done|lia]. }
    destruct (PutVarint_bytes pre junk0 (int64 (ref - last)))
      as (junk' & -> & Hl); [apply int64_is_int64|done|].
    rewrite zigzag_spec_eq by apply int64_is_int64.
    cbv beta iota delta [mbind option_bind]. rewrite app_assoc, <- length_app.
    rewrite IH; [by rewrite <- app_assoc|].
    rewrite length_app. lia.
Qed.

Lemma MarshalRefs_encode refs : MarshalRefs refs = Some (encodeRefs 0 refs).
Proof.
  unfold MarshalRefs.
  apply (MarshalRefs_loop_encode refs [] _ 0).
  rewrite length_replicate. simpl. lia.
Qed.

(** ** UnmarshalRefs *)

Lemma encodeRefs_length last refs : (length refs ≤ length (encodeRefs last refs))%nat.
Proof.
  revert last. induction refs as [|ref refs IH]; intros last; simpl; [lia|].
  rewrite length_app. specialize (IH ref).
  destruct (128 <=? _); simpl; lia.
Qed.

Lemma last_def_cons d x l : last_def d (x :: l) = last_def x l.
Proof. unfold last_def. rewrite last_cons. by destruct (last l). Qed.

Lemma UnmarshalRefs_loop_encode refs : ∀ fuel last acc rest,
  Forall is_int64 refs →
  (length refs ≤ fuel)%nat →
  UnmarshalRefs_loop (fuel + length rest + 1) (encodeRefs last refs ++ rest) last acc
  = UnmarshalRefs_loop (fuel - length refs + length rest + 1) rest
      (last_def last refs) (acc ++ refs).
Proof.
  induction refs as [|ref refs IH]; intros fuel last acc rest Hrefs Hfuel.
  - simpl. by rewrite app_nil_r, Nat.sub_0_r.
  - apply Forall_cons in Hrefs as [Href Hrefs]. simpl in Hfuel.
    destruct fuel as [|fuel]; [lia|].
    cbn [encodeRefs]. rewrite <- app_assoc.
    rewrite zigzag_spec_eq by apply int64_is_int64.
    change (S fuel + length rest + 1)%nat with (S (fuel + length rest + 1)).
    cbn [UnmarshalRefs_loop].
    rewrite ReadVarint_bytes by apply int64_is_int64.
    rewrite int64_delta by done.
    rewrite IH by (done || lia).
    rewrite <- app_assoc, last_def_cons. done.
Qed.

Lemma UnmarshalRefs_logged_encode refs rest :
  Forall is_int64 refs →
  UnmarshalRefs_logged (encodeRefs 0 refs ++ rest)
  = UnmarshalRefs_loop (length (encodeRefs 0 refs) - length refs + length rest + 1)
      rest (last_def 0 refs) refs.
Proof.
  intros Hrefs. unfold UnmarshalRefs_logged.
  replace (S (length (encodeRefs 0 refs ++ rest)))
    with (length (encodeRefs 0 refs) + length rest + 1)%nat
    by (rewrite length_app; lia).
  rewrite UnmarshalRefs_loop_encode; [done..|apply encodeRefs_length].
Qed.

Lemma UnmarshalRefs_encode refs :
  Forall is_int64 refs → UnmarshalRefs (encodeRefs 0 refs) = refs.
Proof.
  intros Hrefs. unfold UnmarshalRefs.
  rewrite <- (app_nil_r (encodeRefs 0 refs)).
  rewrite UnmarshalRefs_logged_encode by done.
  by rewrite Nat.add_1_r.
Qed.

Lemma UnmarshalRefs_MarshalRefs refs data :
  Forall is_int64 refs → MarshalRefs refs = Some data → UnmarshalRefs data = refs.
Proof.
  intros Hrefs. rewrite MarshalRefs_encode. intros [= <-].
  by apply UnmarshalRefs_encode.
Qed.

Lemma encodeRefs_deltas last refs :
  encodeRefs last refs = concat (varint_spec <$> deltas last refs).
Proof.
  revert last. induction refs as [|ref refs IH]; intros last; [done|].
  cbn [encodeRefs deltas fmap list_fmap concat]. by rewrite IH.
Qed.

Lemma encodeRefs_app last s1 s2 :
  encodeRefs last (s1 ++ s2) = encodeRefs last s1 ++ encodeRefs (last_def last s1) s2.
Proof.
  revert last. induction s1 as [|ref s1 IH]; intros last; [done|].
  cbn [app encodeRefs]. by rewrite IH, last_def_cons, app_assoc.
Qed.

Lemma base128_uvarint_bytes n x :
  0 ≤ x < 2 ^ (7 * Z.of_nat (S n)) → base128 (uvarint_bytes (S n) x) = x.
Proof.
  revert x. induction n as [|n IH]; intros x Hx.
  - change (2 ^ (7 * Z.of_nat 1)) with 128 in Hx. simpl.
    destruct (Z.leb_spec 128 x); [lia|]. simpl. zmod.
  - change (uvarint_bytes (S (S n)) x) with
      (if 128 <=? x then (128 + x mod 128) :: uvarint_bytes (S n) (x / 128) else [x]).
    destruct (Z.leb_spec 128 x).
    + cbn [base128 foldr]. fold (base128 (uvarint_bytes (S n) (x / 128))).
      rewrite IH; [zmod|].
      replace (7 * Z.of_nat (S (S n))) with (7 + 7 * Z.of_nat (S n)) in Hx by lia.
      rewrite Z.pow_add_r in Hx by lia. pow2. split; [zmod|].
      apply Z.div_lt_upper_bound; lia.
    + simpl. zmod.
Qed.

Lemma zigzag_spec_bound d :
  is_int64 d → 0 ≤ zigzag_spec d < 2 ^ (7 * Z.of_nat MaxVarintLen64).
Proof.
  intros Hd. rewrite zigzag_spec_eq by done.
  pose proof (zigzag_is_uint64 d Hd) as Hu. unfold is_uint64 in Hu.
  change (2 ^ (7 * Z.of_nat MaxVarintLen64)) with (2 ^ 64 * 64). pow2. lia.
Qed.

Lemma deltas_int64 last refs : Forall is_int64 (deltas last refs).
Proof.
  revert last. induction refs as [|ref refs IH]; intros last; simpl;
    [apply Forall_nil_2 | apply Forall_cons_2; [apply int64_is_int64 | done]].
Qed.

(** ** Truncated input *)

Lemma ReadUvarint_loop_cont n : ∀ (i : nat) x s (t : list Z),
  Forall (λ b, 128 ≤ b) t →
  (length t < n)%nat →
  ∃ x', ReadUvarint_loop n i x s t
        = (x', Some (if decide (0 < i + length t)%nat then ErrUnexpectedEOF else EOF), []).
Proof.
  induction n as [|n IH]; intros i x s t Ht Hlen; [lia|].
  destruct t as [|b t].
  - exists x. simpl. by rewrite Nat.add_0_r.
  - apply Forall_cons in Ht as [Hb Ht]. rewrite ReadUvarint_loop_cons.
    destruct (Z.ltb_spec b 128); [lia|].
    destruct (IH (S i) (Z.lor x (uint64 (Z.shiftl (Z.land b 127) s))) (s + 7) t)
      as [x' ->]; [done|simpl in Hlen; lia|].
    exists x'. simpl. by replace (i + S (length t))%nat with (S (i + length t)) by lia.
Qed.

Lemma UnmarshalRefs_loop_cont fuel (t : list Z) last acc :
  Forall (λ b, 128 ≤ b) t →
  (0 < length t < MaxVarintLen64)%nat →
  UnmarshalRefs_loop (S fuel) t last acc = (acc, [ErrUnexpectedEOF]).
Proof.
  intros Ht Hlen. cbn [UnmarshalRefs_loop]. unfold ReadVarint, ReadUvarint.
  destruct (ReadUvarint_loop_cont MaxVarintLen64 0 0 0 t) as [x' ->]; [done|lia|].
  rewrite decide_True by lia. done.
Qed.

(** A byte string that ends inside a variable-length integer: a complete
    encoding followed by a proper, nonempty prefix of one more integer. *)
Lemma take_varint_cont d j :
  is_int64 d →
  (0 < j < length (varint_spec d))%nat →
  Forall (λ b, 128 ≤ b) (take j (varint_spec d))
  ∧ (0 < length (take j (varint_spec d)) < MaxVarintLen64)%nat.
Proof.
  intros Hd Hj. unfold varint_spec in *.
  pose proof (uvarint_bytes_length MaxVarintLen64 (zigzag_spec d)) as Hn.
  destruct (uvarint_bytes_shape 9 (zigzag_spec d)) as (front & final & Heq & Hf & _).
  { by apply zigzag_spec_bound. }
  change (S 9) with MaxVarintLen64 in Heq. rewrite Heq in *.
  rewrite length_app in Hj, Hn. simpl in Hj, Hn.
  rewrite take_app_le by lia. split.
  - apply Forall_take. eapply Forall_impl; [done|]. simpl. lia.
  - rewrite length_take. lia.
Qed.

Lemma UnmarshalRefs_logged_truncated s v k :
  Forall is_int64 (s ++ [v]) →
  (length (encodeRefs 0 s) < k < length (encodeRefs 0 (s ++ [v])))%nat →
  UnmarshalRefs_logged (take k (encodeRefs 0 (s ++ [v]))) = (s, [ErrUnexpectedEOF]).
Proof.
  intros Hsv Hk. apply Forall_app in Hsv as [Hs Hv].
  rewrite encodeRefs_app in *. rewrite length_app in Hk.
  rewrite take_app_ge by lia.
  set (j := (k - length (encodeRefs 0 s))%nat).
  cbn [encodeRefs] in *. rewrite app_nil_r in *.
  fold (varint_spec (int64 (v - last_def 0 s))) in *.
  destruct (take_varint_cont (int64 (v - last_def 0 s)) j) as [Hc Hl];
    [apply int64_is_int64|lia|].
  rewrite UnmarshalRefs_logged_encode by done.
  rewrite Nat.add_1_r. by apply UnmarshalRefs_loop_cont.
Qed.

(** ** Binary search and sorted insertion *)

Lemma half_between (i j : nat) :
  (i < j)%nat → (i ≤ (i + j) `div` 2 < j)%nat.
Proof.
  intros Hij. pose proof (Nat.div_mod_eq (i + j) 2).
  pose proof (Nat.mod_upper_bound (i + j) 2). lia.
Qed.

Lemma Search_loop_S fuel f i j :
  sort.Search_loop (S fuel) f i j =
  if decide (i < j)%nat then
    if negb (f ((i + j) `div` 2)%nat)
    then sort.Search_loop fuel f ((i + j) `div` 2 + 1)%nat j
    else sort.Search_loop fuel f i ((i + j) `div` 2)%nat
  else i.
Proof. done. Qed.

Lemma Search_loop_spec (f : nat → bool) (n : nat) :
  (∀ a b, (a ≤ b < n)%nat → f a = true → f b = true) →
  ∀ fuel i j,
    (j - i ≤ fuel)%nat → (i ≤ j ≤ n)%nat →
    (∀ k, (k < i)%nat → f k = false) →
    (∀ k, (j ≤ k < n)%nat → f k = true) →
    (sort.Search_loop fuel f i j ≤ n)%nat
    ∧ (∀ k, (k < sort.Search_loop fuel f i j)%nat → f k = false)
    ∧ (∀ k, (sort.Search_loop fuel f i j ≤ k < n)%nat → f k = true).
Proof.
  intros Hmono. induction fuel as [|fuel IH]; intros i j Hfuel Hij Hlo Hhi.
  - simpl. assert (i = j) as -> by lia. split_and!; [lia|done..].
  - rewrite Search_loop_S. case_decide as Hlt; [|assert (i = j) as -> by lia; split_and!; [lia|done..]].
    assert (Hh : (i ≤ (i + j) `div` 2 < j)%nat) by by apply half_between.
    set (h := ((i + j) `div` 2)%nat) in *.
    destruct (f h) eqn:Hfh; simpl.
    + apply IH; [lia..|done|].
      intros k Hk. apply (Hmono h k); [lia|done].
    + apply IH; [lia..| |done].
      intros k Hk. destruct (f k) eqn:Hfk; [|done].
      rewrite <- Hfh. symmetry. apply (Hmono k h); [lia|done].
Qed.

(** [Search] reads [f] below [n] only. *)
Lemma Search_loop_ext (f g : nat → bool) (n : nat) :
  (∀ k, (k < n)%nat → f k = g k) →
  ∀ fuel i j, (j ≤ n)%nat → sort.Search_loop fuel f i j = sort.Search_loop fuel g i j.
Proof.
  intros Hfg. induction fuel as [|fuel IH]; intros i j Hj; [done|].
  rewrite !Search_loop_S. case_decide; [|done].
  assert (Hh : (i ≤ (i + j) `div` 2 < j)%nat) by by apply half_between.
  set (h := ((i + j) `div` 2)%nat) in *.
  rewrite (Hfg h) by lia. destruct (g h); simpl; apply IH; lia.
Qed.

Lemma Search_ext (f g : nat → bool) (n : nat) :
  (∀ k, (k < n)%nat → f k = g k) → sort.Search n f = sort.Search n g.
Proof. intros Hfg. by apply (Search_loop_ext f g n). Qed.

Lemma StronglySorted_lookup_le (l : list Z) : ∀ i j x y,
  StronglySorted Z.le l → (i ≤ j)%nat → l !! i = Some x → l !! j = Some y → x ≤ y.
Proof.
  induction l as [|a l IH]; intros i j x y Hs Hij Hi Hj; [done|].
  apply StronglySorted_cons in Hs as [Ha Hs].
  destruct i as [|i], j as [|j]; simplify_eq/=; [lia| |lia|].
  - eapply Forall_lookup_1 in Ha; [|done]. done.
  - eapply IH; [done| |done..]. lia.
Qed.

Lemma Search_sorted (refs : list Z) (ref : Z) :
  StronglySorted Z.le refs →
  let i := sort.Search (length refs) (λ i, bool_decide (ref ≤ refs !!! i)) in
  (i ≤ length refs)%nat
  ∧ Forall (λ x, x < ref) (take i refs)
  ∧ Forall (λ x, ref ≤ x) (drop i refs).
Proof.
  intros Hs.
  destruct (Search_loop_spec (λ i, bool_decide (ref ≤ refs !!! i)) (length refs))
    with (fuel := length refs) (i := 0%nat) (j := length refs)
    as (Hr & Hlo & Hhi); [|lia|lia|lia|lia|].
  { intros a b Hab Ha. apply bool_decide_eq_true in Ha. apply bool_decide_eq_true.
    destruct (lookup_lt_is_Some_2 refs a) as [x Hx]; [lia|].
    destruct (lookup_lt_is_Some_2 refs b) as [y Hy]; [lia|].
    rewrite (list_lookup_total_correct _ _ _ Hx) in Ha.
    rewrite (list_lookup_total_correct _ _ _ Hy).
    pose proof (StronglySorted_lookup_le refs a b x y Hs ltac:(lia) Hx Hy). lia. }
  fold (sort.Search (length refs) (λ i, bool_decide (ref ≤ refs !!! i))) in *.
  set (r := sort.Search _ _) in *. simpl. split; [done|]. split.
  - apply Forall_lookup_2. intros k x Hk.
    apply lookup_take_Some in Hk as [Hk Hkr].
    specialize (Hlo k Hkr). apply bool_decide_eq_false in Hlo.
    rewrite (list_lookup_total_correct _ _ _ Hk) in Hlo. lia.
  - apply Forall_lookup_2. intros k x Hk. rewrite lookup_drop in Hk.
    pose proof (lookup_lt_Some _ _ _ Hk).
    specialize (Hhi (r + k)%nat). apply bool_decide_eq_true in Hhi; [|lia].
    by rewrite (list_lookup_total_correct _ _ _ Hk) in Hhi.
Qed.

(** [append(refs, 0)], [copy(refs[i+1:], refs[i:])] and [refs[i] = ref]
    open a gap at [i] and put [ref] in it. *)
Lemma insert_shift (refs : list Z) (i : nat) (ref : Z) :
  (i < length refs)%nat →
  <[i := ref]> (take (S i) (refs ++ [0])
                ++ take (length (refs ++ [0]) - S i) (drop i (refs ++ [0])))
  = take i refs ++ ref :: drop i refs.
Proof.
  intros Hi.
  rewrite take_app_le by lia.
  rewrite length_app, drop_app_le by lia. simpl.
  rewrite take_app_le by (rewrite length_drop; lia).
  rewrite (take_ge (drop i refs)) by (rewrite length_drop; lia).
  rewrite insert_app_l by (rewrite length_take; lia).
  destruct (lookup_lt_is_Some_2 refs i) as [x Hx]; [done|].
  rewrite (take_S_r _ _ _ Hx).
  replace i with (length (take i refs) + 0)%nat at 1 by (rewrite length_take; lia).
  rewrite insert_app_r. simpl. by rewrite <- app_assoc.
Qed.

Lemma insertRefs_eq (refs : list Z) (ref : Z) :
  let i := sort.Search (length refs) (λ i, bool_decide (ref ≤ refs !!! i)) in
  insertRefs refs ref
  = if decide ((i < length refs)%nat ∧ ref ≤ refs !!! i)
    then take i refs ++ ref :: drop i refs else refs ++ [ref].
Proof.
  simpl. unfold insertRefs. case_decide as Hi; [|done].
  apply insert_shift. tauto.
Qed.

Lemma insertRefs_Permutation refs ref : insertRefs refs ref ≡ₚ ref :: refs.
Proof.
  rewrite insertRefs_eq. case_decide.
  - rewrite <- Permutation_middle. by rewrite take_drop.
  - by rewrite Permutation_app_comm.
Qed.

Lemma insertRefs_StronglySorted refs ref :
  StronglySorted Z.le refs → StronglySorted Z.le (insertRefs refs ref).
Proof.
  intros Hs. destruct (Search_sorted refs ref Hs) as (Hr & Hlo & Hhi).
  rewrite insertRefs_eq. set (i := sort.Search _ _) in *.
  rewrite <- (take_drop i refs) in Hs. apply StronglySorted_app in Hs as (_ & Hs1 & Hs2).
  rewrite Forall_forall in Hlo, Hhi.
  case_decide as Hi.
  - apply StronglySorted_app_2; [|done|].
    + intros x1 x2 H1 H2. apply Hlo in H1.
      apply elem_of_cons in H2 as [->|H2]; [lia|]. apply Hhi in H2. lia.
    + apply StronglySorted_cons. split; [|done]. by apply Forall_forall.
  - assert (i = length refs) as Hn.
    { destruct (decide (i < length refs)%nat) as [Hlt|]; [|lia].
      destruct (lookup_lt_is_Some_2 refs i) as [x Hx]; [done|].
      exfalso. apply Hi. split; [done|].
      rewrite (list_lookup_total_correct _ _ _ Hx).
      apply Hhi. apply list_elem_of_lookup. exists 0%nat.
      by rewrite lookup_drop, Nat.add_0_r. }
    rewrite Hn, take_ge in * by lia.
    apply StronglySorted_app_2; [|done|repeat constructor].
    intros x1 x2 H1 H2. apply Hlo in H1. apply list_elem_of_singleton in H2. lia.
Qed.

Lemma insertRefs_int64 refs ref :
  Forall is_int64 refs → is_int64 ref → Forall is_int64 (insertRefs refs ref).
Proof.
  intros Hrefs Href. rewrite (insertRefs_Permutation refs ref).
  by apply Forall_cons_2.
Qed.

(** ** Sorting *)

Lemma Sort_StronglySorted l : StronglySorted Z.le (sort.Sort l).
Proof. apply StronglySorted_merge_sort; apply _. Qed.

Lemma Sort_Permutation l : sort.Sort l ≡ₚ l.
Proof. apply merge_sort_Permutation. Qed.

Lemma ascending_unique (l1 l2 : list Z) :
  StronglySorted Z.le l1 → StronglySorted Z.le l2 → l1 ≡ₚ l2 → l1 = l2.
Proof. apply StronglySorted_unique. apply _. Qed.

Lemma Sort_id l : StronglySorted Z.le l → sort.Sort l = l.
Proof.
  intros Hl. apply ascending_unique;
    [apply Sort_StronglySorted | done | apply Sort_Permutation].
Qed.

Lemma Sort_proper l1 l2 : l1 ≡ₚ l2 → sort.Sort l1 = sort.Sort l2.
Proof.
  intros Hl. apply ascending_unique; [apply Sort_StronglySorted..|].
  by rewrite !Sort_Permutation.
Qed.

Lemma Sort_int64 l : Forall is_int64 l → Forall is_int64 (sort.Sort l).
Proof. by rewrite Sort_Permutation. Qed.

(** ** Keys *)

Lemma idToKeyBuf_inj a b :
  is_int64 a → is_int64 b → idToKeyBuf a = idToKeyBuf b → a = b.
Proof.
  unfold idToKeyBuf. intros Ha Hb Hab. apply (inj reverse) in Hab.
  apply (f_equal (little_endian_to_Z 8)) in Hab.
  rewrite !little_endian_to_Z_to_little_endian in Hab by lia.
  unfold is_int64, uint64 in *. change (2 ^ (8 * 8)) with (2 ^ 64) in Hab. zmod.
Qed.

(** ** The store after a flush *)

Lemma clearRefs_empty b : clearRefs b = ∅.
Proof.
  apply map_eq. intros id. rewrite lookup_empty. unfold clearRefs.
  destruct (b !! id) as [refs|] eqn:Hid.
  - apply lookup_foldr_delete. apply list_elem_of_fmap.
    exists (id, refs). split; [done|]. by apply elem_of_map_to_list.
  - rewrite lookup_foldr_delete_not_elem_of; [done|].
    intros Hin. apply list_elem_of_fmap in Hin as ([id' refs] & -> & Hin).
    apply elem_of_map_to_list in Hin. simpl in Hid. congruence.
Qed.

Lemma Write_lookup_notin (batch : list (list Z * list Z)) :
  ∀ (db : gmap (list Z) (list Z)) k,
  k ∉ batch.*1 →
  foldl (λ db kv, <[kv.1 := kv.2]> db) db batch !! k = db !! k.
Proof.
  induction batch as [|[k' v'] batch IH]; intros db k Hk; [done|].
  simpl in *. apply not_elem_of_cons in Hk as [Hne Hk].
  rewrite IH by done. by rewrite lookup_insert_ne.
Qed.

Lemma Write_lookup_in (batch : list (list Z * list Z)) :
  ∀ (db : gmap (list Z) (list Z)) k v,
  NoDup batch.*1 → (k, v) ∈ batch →
  foldl (λ db kv, <[kv.1 := kv.2]> db) db batch !! k = Some v.
Proof.
  induction batch as [|[k' v'] batch IH]; intros db k v Hnd Hin.
  - by apply elem_of_nil in Hin.
  - simpl in *. apply NoDup_cons in Hnd as [Hk' Hnd].
    apply elem_of_cons in Hin as [[= -> ->]|Hin].
    + rewrite Write_lookup_notin by done. apply lookup_insert_eq.
    + by apply IH.
Qed.

(** The workers fill the batch in an arbitrary order: with distinct keys
    the store after the write is the same. *)
Lemma Write_batch_order db (batch1 batch2 : list (list Z * list Z)) ok :
  NoDup batch1.*1 → batch1 ≡ₚ batch2 →
  levigo.Write db batch1 ok = levigo.Write db batch2 ok.
Proof.
  intros Hnd Hp. unfold levigo.Write. destruct ok; [|done]. f_equal.
  assert (Hnd2 : NoDup batch2.*1) by by rewrite <- Hp.
  apply map_eq. intros k.
  destruct (decide (k ∈ batch1.*1)) as [Hin|Hin].
  - apply list_elem_of_fmap in Hin as ([k' v] & -> & Hin). simpl.
    rewrite (Write_lookup_in batch1 db k' v) by done.
    rewrite (Write_lookup_in batch2 db k' v); [done..|by rewrite <- Hp].
  - rewrite !Write_lookup_notin; [done| |done]. by rewrite <- Hp.
Qed.

Lemma loadAppendMarshal_eq db keyBuf newRefs :
  loadAppendMarshal db keyBuf newRefs
  = Some (encodeRefs 0 (mergedRefs db keyBuf newRefs)).
Proof.
  unfold loadAppendMarshal, mergedRefs. rewrite MarshalRefs_encode.
  by destruct (db !! keyBuf).
Qed.

Lemma mapM_total {A B} (f : A → option B) (g : A → B) (l : list A) :
  (∀ x, f x = Some (g x)) → mapM f l = Some (g <$> l).
Proof.
  intros Hfg. apply mapM_Some. induction l; constructor; auto.
Qed.

Lemma writeRefs_eq db ok b :
  writeRefs db ok b
  = Some (let '(db', err) :=
            levigo.Write db
              ((λ item : Z * list Z,
                  (idToKeyBuf item.1,
                   encodeRefs 0 (mergedRefs db (idToKeyBuf item.1) item.2)))
               <$> map_to_list b) ok in
          (db', ∅, err)).
Proof.
  unfold writeRefs.
  rewrite (mapM_total _ (λ item : Z * list Z,
     (idToKeyBuf item.1, encodeRefs 0 (mergedRefs db (idToKeyBuf item.1) item.2)))).
  - simpl. rewrite clearRefs_empty. by destruct (levigo.Write _ _ _).
  - intros [id refs]. simpl. by rewrite loadAppendMarshal_eq.
Qed.

(** [writeRefs] never panics. *)
Lemma writeRefs_total db ok b : is_Some (writeRefs db ok b).
Proof. rewrite writeRefs_eq. eauto. Qed.

Lemma writeRefs_failed db b :
  writeRefs db false b = Some (db, ∅, Some levigo.IOError).
Proof. by rewrite writeRefs_eq. Qed.

Lemma writeRefs_keys_NoDup db b :
  buffer_ok b →
  NoDup ((λ item : Z * list Z,
            (idToKeyBuf item.1,
             encodeRefs 0 (mergedRefs db (idToKeyBuf item.1) item.2)))
         <$> map_to_list b).*1.
Proof.
  intros Hb. rewrite <- list_fmap_compose.
  apply NoDup_fmap_2_strong; [|apply NoDup_map_to_list].
  intros [id1 refs1] [id2 refs2] H1 H2 Hk. simpl in Hk.
  apply elem_of_map_to_list in H1, H2.
  assert (id1 = id2) as ->.
  { apply idToKeyBuf_inj; [apply (Hb _ _ H1)|apply (Hb _ _ H2)|done]. }
  congruence.
Qed.

Lemma writeRefs_lookup_in db b db' cleared err id refs :
  buffer_ok b →
  writeRefs db true b = Some (db', cleared, err) →
  b !! id = Some refs →
  db' !! idToKeyBuf id = Some (encodeRefs 0 (mergedRefs db (idToKeyBuf id) refs)).
Proof.
  intros Hb Hw Hid. rewrite writeRefs_eq in Hw. simpl in Hw. simplify_eq.
  apply Write_lookup_in; [by apply writeRefs_keys_NoDup|].
  apply list_elem_of_fmap. exists (id, refs). split; [done|].
  by apply elem_of_map_to_list.
Qed.

Lemma writeRefs_lookup_notin db b db' cleared err k :
  writeRefs db true b = Some (db', cleared, err) →
  (∀ id, is_Some (b !! id) → k ≠ idToKeyBuf id) →
  db' !! k = db !! k.
Proof.
  intros Hw Hk. rewrite writeRefs_eq in Hw. simpl in Hw. simplify_eq.
  apply Write_lookup_notin. rewrite <- list_fmap_compose.
  intros Hin. apply list_elem_of_fmap in Hin as ([id refs] & -> & Hin).
  apply elem_of_map_to_list in Hin. by apply (Hk id).
Qed.

Lemma db_ok_Get db id :
  db_ok db → Forall is_int64 (Get db id) ∧ StronglySorted Z.le (Get db id).
Proof.
  intros Hdb. unfold Get. destruct (db !! idToKeyBuf id) as [data|] eqn:Hd.
  - destruct (Hdb _ _ Hd) as (refs & -> & Hi & Hs).
    by rewrite UnmarshalRefs_encode.
  - split; constructor.
Qed.

Lemma mergedRefs_ok db k refs :
  db_ok db → Forall is_int64 refs → StronglySorted Z.le refs →
  Forall is_int64 (mergedRefs db k refs)
  ∧ StronglySorted Z.le (mergedRefs db k refs).
Proof.
  intros Hdb Hi Hs. unfold mergedRefs. destruct (db !! k) as [data|] eqn:Hd; [|done].
  destruct (Hdb _ _ Hd) as (old & -> & Hoi & Hos).
  rewrite UnmarshalRefs_encode by done. split.
  - apply Sort_int64. by apply Forall_app.
  - apply Sort_StronglySorted.
Qed.

Lemma writeRefs_db_ok db ok b db' cleared err :
  db_ok db → buffer_ok b →
  writeRefs db ok b = Some (db', cleared, err) → db_ok db'.
Proof.
  intros Hdb Hb Hw. destruct ok; [|rewrite writeRefs_failed in Hw; by simplify_eq].
  intros k data Hk.
  destruct (decide (k ∈ idToKeyBuf <$> (map_to_list b).*1)) as [Hin|Hno].
  - apply list_elem_of_fmap in Hin as (id & -> & Hin).
    apply list_elem_of_fmap in Hin as ([id' refs] & -> & Hid).
    apply elem_of_map_to_list in Hid. simpl in *.
    rewrite (writeRefs_lookup_in _ _ _ _ _ _ _ Hb Hw Hid) in Hk. simplify_eq.
    destruct (Hb _ _ Hid) as (_ & Hi & Hs).
    destruct (mergedRefs_ok db (idToKeyBuf id') refs) as [? ?]; [done..|]. eauto.
  - rewrite (writeRefs_lookup_notin _ _ _ _ _ _ Hw) in Hk; [by eapply Hdb|].
    intros id [refs Hid] ->. apply Hno.
    apply list_elem_of_fmap. exists id. split; [done|].
    apply list_elem_of_fmap. exists (id, refs). split; [done|].
    by apply elem_of_map_to_list.
Qed.

Lemma writeRefs_Get db b db' cleared err id :
  db_ok db → buffer_ok b → is_int64 id →
  writeRefs db true b = Some (db', cleared, err) →
  Get db' id = sort.Sort (Get db id ++ refsIn id b).
Proof.
  intros Hdb Hb Hid Hw. unfold refsIn.
  destruct (db_ok_Get db id Hdb) as [Hgi Hgs].
  destruct (b !! id) as [refs|] eqn:Hbid; simpl.
  - destruct (Hb _ _ Hbid) as (_ & Hi & Hs).
    unfold Get at 1. rewrite (writeRefs_lookup_in _ _ _ _ _ _ _ Hb Hw Hbid).
    destruct (mergedRefs_ok db (idToKeyBuf id) refs) as [? ?]; [done..|].
    rewrite UnmarshalRefs_encode by done.
    unfold mergedRefs, Get. destruct (db !! idToKeyBuf id); [done|].
    simpl. by rewrite Sort_id.
  - rewrite app_nil_r, Sort_id by done. unfold Get.
    rewrite (writeRefs_lookup_notin _ _ _ _ _ _ Hw); [done|].
    intros id' [refs' Hid'] Hk.
    apply idToKeyBuf_inj in Hk; [congruence|done|apply (Hb _ _ Hid')].
Qed.

(** ** The accumulation buffer *)

Lemma addToCache_ok b id ref :
  buffer_ok b → is_int64 id → is_int64 ref → buffer_ok (addToCache b id ref).
Proof.
  intros Hb Hid Href. unfold addToCache. apply map_Forall_insert_2; [|done].
  split; [done|].
  destruct (b !! id) as [refs|] eqn:Hl.
  - destruct (Hb _ _ Hl) as (_ & Hi & Hs).
    split; [by apply insertRefs_int64 | by apply insertRefs_StronglySorted].
  - split; [apply insertRefs_int64 | apply insertRefs_StronglySorted];
      done || constructor.
Qed.

Lemma refsIn_addToCache b id ref id' :
  refsIn id' (addToCache b id ref)
  ≡ₚ (if decide (id = id') then [ref] else []) ++ refsIn id' b.
Proof.
  unfold refsIn, addToCache. case_decide as Hid.
  - subst id'. rewrite lookup_insert_eq. simpl.
    rewrite insertRefs_Permutation. by destruct (b !! id).
  - by rewrite lookup_insert_ne.
Qed.

Lemma size_addToCache b id ref :
  (size b ≤ size (addToCache b id ref) ≤ S (size b))%nat.
Proof.
  unfold addToCache. destruct (b !! id) as [refs|] eqn:Hl.
  - rewrite map_size_insert_Some by done. lia.
  - rewrite map_size_insert_None by done. lia.
Qed.

Lemma refsIn_empty id : refsIn id ∅ = [].
Proof. unfold refsIn. by rewrite lookup_empty. Qed.

Lemma refsOf_cons id e es :
  refsOf id (e :: es)
  = (if decide (idRef_id e = id) then [idRef_ref e] else []) ++ refsOf id es.
Proof. unfold refsOf. rewrite filter_cons. by case_decide. Qed.

Lemma refsOf_app id es1 es2 : refsOf id (es1 ++ es2) = refsOf id es1 ++ refsOf id es2.
Proof. unfold refsOf. by rewrite filter_app, fmap_app. Qed.

Lemma accepted_app evs1 evs2 : accepted (evs1 ++ evs2) = accepted evs1 ++ accepted evs2.
Proof. unfold accepted. apply omap_app. Qed.

Lemma buffer_ok_empty : buffer_ok ∅.
Proof. apply map_Forall_empty. Qed.

(** ** One iteration of dispatch *)

Lemma dispatch_iter_spec buf pool e buf' out pool' :
  dispatch_iter buf pool e = (buf', out, pool') →
  Z.of_nat (size buf) < cacheSize →
  Forall (λ b, b = ∅) pool →
  let full := addToCache buf (idRef_id e) (idRef_ref e) in
  Z.of_nat (size full) ≤ cacheSize
  ∧ Forall (λ b, b = ∅) pool'
  ∧ ((Z.of_nat (size full) = cacheSize ∧ out = [full] ∧ buf' = ∅
      ∧ pool' = tail pool)
     ∨ (Z.of_nat (size full) < cacheSize ∧ out = [] ∧ buf' = full
        ∧ pool' = pool)).
Proof.
  intros Hd Hsize Hpool. simpl. unfold dispatch_iter in Hd.
  pose proof (size_addToCache buf (idRef_id e) (idRef_ref e)) as Hs.
  split; [lia|]. case_decide as Hfull.
  - destruct pool as [|b pool]; simplify_eq.
    + split; [done|]. left. split_and!; [lia|done..].
    + apply Forall_cons in Hpool as [-> Hpool].
      split; [done|]. left. split_and!; [lia|done..].
  - simplify_eq. split; [done|]. right. split_and!; [lia|done..].
Qed.

(** ** The steps of the pipeline *)

Lemma exec_Dispatch_inv x x' :
  exec x Dispatch = Some x' →
  ∃ e rest buf out pool,
    waitAdd x = true ∧ addc x = e :: rest
    ∧ dispatch_iter (buffer x) (refCaches x) e = (buf, out, pool)
    ∧ (length (writec x ++ out) ≤ 2)%nat
    ∧ x' = {| db := db x; dbOpen := dbOpen x; buffer := buf;
              writec := writec x ++ out; addc := rest;
              addClosed := addClosed x; writeClosed := writeClosed x;
              waitAdd := waitAdd x; waitWrite := waitWrite x;
              logged := logged x; refCaches := pool |}.
Proof.
  simpl. intros Hex. case_guard; [|done]. simpl in Hex.
  destruct (addc x) as [|e rest]; [done|].
  destruct (dispatch_iter _ _ _) as [[buf out] pool] eqn:Hd.
  case_guard; [|done]. simplify_eq/=. by exists e, rest, buf, out, pool.
Qed.

Lemma exec_DispatchEnd_inv x x' :
  exec x DispatchEnd = Some x' →
  ∃ buf out,
    waitAdd x = true ∧ addClosed x = true ∧ addc x = []
    ∧ dispatch_end (buffer x) = (buf, out)
    ∧ (length (writec x ++ out) ≤ 2)%nat
    ∧ x' = {| db := db x; dbOpen := dbOpen x; buffer := buf;
              writec := writec x ++ out; addc := addc x;
              addClosed := addClosed x; writeClosed := writeClosed x;
              waitAdd := false; waitWrite := waitWrite x;
              logged := logged x; refCaches := refCaches x |}.
Proof.
  simpl. intros Hex. case_guard; [|done]. simpl in Hex.
  destruct (dispatch_end _) as [buf out] eqn:Hd.
  case_guard; [|done]. simplify_eq/=. exists buf, out. by destruct_and!.
Qed.

Lemma exec_Write_inv x ok x' :
  exec x (Write ok) = Some x' →
  ∃ buf rest db' cleared err,
    waitWrite x = true ∧ writec x = buf :: rest
    ∧ writeRefs (db x) ok buf = Some (db', cleared, err)
    ∧ cleared = ∅
    ∧ x' = {| db := db'; dbOpen := dbOpen x; buffer := buffer x;
              writec := rest; addc := addc x;
              addClosed := addClosed x; writeClosed := writeClosed x;
              waitAdd := waitAdd x; waitWrite := waitWrite x;
              logged := logged x ++ match err with Some e => [e] | None => [] end;
              refCaches := refCaches x ++ [cleared] |}.
Proof.
  simpl. intros Hex. case_guard; [|done]. simpl in Hex.
  destruct (writec x) as [|buf rest]; [done|].
  unfold writer_iter in Hex. simpl in Hex.
  destruct (writeRefs (db x) ok buf) as [[[db' cleared] err]|] eqn:Hw; [|done].
  simpl in Hex. simplify_eq.
  exists buf, rest, db', cleared, err. split_and!; try done.
  rewrite writeRefs_eq in Hw. destruct (levigo.Write _ _ _). by simplify_eq.
Qed.

Lemma NewRefIndex_Inv db0 : db_ok db0 → Inv (NewRefIndex db0 []).
Proof. intros Hdb. constructor; simpl; done. Qed.

Lemma dispatch_end_spec buf buf' out :
  dispatch_end buf = (buf', out) →
  buf' = ∅ ∧ (out = [buf] ∧ (0 < size buf)%nat ∨ out = [] ∧ buf = ∅).
Proof.
  unfold dispatch_end. case_decide as Hs; intros [= <- <-].
  - split; [done|]. by left.
  - assert (buf = ∅) as -> by (apply map_size_empty_iff; lia).
    split; [done|]. by right.
Qed.

Ltac flag_solve :=
  intros;
  repeat match goal with
         | H : ?a = ?v → _, H' : ?a = ?v |- _ => specialize (H H')
         end;
  simpl in *; intuition congruence.

Ltac inv_fields :=
  constructor; simpl;
  try done;
  try (apply Forall_app; split; [done|]; by apply Forall_singleton);
  try (by flag_solve).

Lemma exec_Inv x ev x' : Inv x → exec x ev = Some x' → Inv x'.
Proof.
  intros [Hdb Hbuf Hwc Hac Hpool Hsize HwA HwC HwW HdO] Hex.
  destruct ev.
  - simpl in Hex. simplify_option_eq. inv_fields.
  - apply exec_Dispatch_inv in Hex
      as (e & rest & buf & out & pool & Hw & Ha & Hd & Hlen & ->).
    rewrite Ha in Hac. apply Forall_cons in Hac as [[He1 He2] Hac].
    destruct (dispatch_iter_spec _ _ _ _ _ _ Hd Hsize Hpool) as (Hle & Hp' & Hcase).
    pose proof (addToCache_ok _ _ _ Hbuf He1 He2) as Hfull.
    inv_fields.
    + by destruct Hcase as [(_ & _ & -> & _)|(_ & _ & -> & _)].
    + apply Forall_app. split; [done|].
      destruct Hcase as [(_ & -> & _)|(_ & -> & _)]; [by apply Forall_singleton|done].
    + destruct Hcase as [(_ & _ & -> & _)|(? & _ & -> & _)]; [done|lia].
  - apply exec_DispatchEnd_inv in Hex
      as (buf & out & Hw & Hc & Ha & Hd & Hlen & ->).
    apply dispatch_end_spec in Hd as [-> Hout].
    inv_fields.
    apply Forall_app. split; [done|].
    destruct Hout as [[-> _]|[-> _]]; [by apply Forall_singleton|done].
  - apply exec_Write_inv in Hex
      as (buf & rest & db' & cleared & err & Hw & Hwc' & Hwr & -> & ->).
    rewrite Hwc' in Hwc. apply Forall_cons in Hwc as [Hb Hrest].
    inv_fields.
    by eapply writeRefs_db_ok.
  - simpl in Hex. simplify_option_eq. inv_fields.
  - simpl in Hex. simplify_option_eq. inv_fields.
  - simpl in Hex. simplify_option_eq. inv_fields.
  - simpl in Hex. simplify_option_eq. inv_fields.
  - simpl in Hex. simplify_option_eq. inv_fields.
    apply Forall_app. split; [done|]. apply Forall_singleton, clearRefs_empty.
  - simpl in Hex. simplify_option_eq. inv_fields.
    destruct (refCaches x); [done|]. by apply Forall_cons in Hpool as [_ ?].
Qed.

Lemma run_Inv evs : ∀ x x', Inv x → run x evs = Some x' → Inv x'.
Proof.
  induction evs as [|ev evs IH]; intros x x' HI Hrun; simpl in Hrun.
  - by simplify_eq.
  - destruct (exec x ev) as [x1|] eqn:Hex; [|done]. simpl in Hrun.
    eapply IH; [|done]. by eapply exec_Inv.
Qed.

Lemma run_app evs1 evs2 x :
  run x (evs1 ++ evs2) = x1 ← run x evs1; run x1 evs2.
Proof.
  revert x. induction evs1 as [|ev evs1 IH]; intros x; simpl; [done|].
  destruct (exec x ev); simpl; [apply IH|done].
Qed.

(** ** What the pipeline holds *)

Lemma pendingRefs_Dispatch x x' id :
  Inv x → exec x Dispatch = Some x' →
  db x' = db x ∧ pendingRefs x' id ≡ₚ pendingRefs x id.
Proof.
  intros HI Hex. destruct HI as [_ _ _ _ Hpool Hsize _ _ _ _].
  apply exec_Dispatch_inv in Hex
    as (e & rest & buf & out & pool & Hw & Ha & Hd & Hlen & ->).
  split; [done|].
  destruct (dispatch_iter_spec _ _ _ _ _ _ Hd Hsize Hpool) as (_ & _ & Hcase).
  unfold pendingRefs. simpl. rewrite Ha, refsOf_cons.
  destruct Hcase as [(_ & -> & -> & _)|(_ & -> & -> & _)].
  - rewrite fmap_app, concat_app. simpl.
    rewrite app_nil_r, refsIn_empty, refsIn_addToCache. simpl.
    rewrite <- !app_assoc. f_equiv. rewrite !app_assoc. f_equiv.
    apply Permutation_app_comm.
  - rewrite app_nil_r, refsIn_addToCache. f_equiv.
    rewrite !app_assoc. f_equiv. apply Permutation_app_comm.
Qed.

Lemma pendingRefs_DispatchEnd x x' id :
  exec x DispatchEnd = Some x' →
  db x' = db x ∧ pendingRefs x' id = pendingRefs x id.
Proof.
  intros Hex. apply exec_DispatchEnd_inv in Hex
    as (buf & out & Hw & Hc & Ha & Hd & Hlen & ->).
  split; [done|].
  apply dispatch_end_spec in Hd as [-> Hout].
  unfold pendingRefs. simpl.
  destruct Hout as [[-> _]|[-> ->]].
  - rewrite fmap_app, concat_app. simpl.
    by rewrite app_nil_r, refsIn_empty, <- app_assoc.
  - by rewrite app_nil_r.
Qed.

Lemma pendingRefs_Write x x' id :
  Inv x → is_int64 id → exec x (Write true) = Some x' →
  Get (db x') id ++ pendingRefs x' id ≡ₚ Get (db x) id ++ pendingRefs x id.
Proof.
  intros HI Hid Hex. destruct HI as [Hdb _ Hwc _ _ _ _ _ _ _].
  apply exec_Write_inv in Hex
    as (buf & rest & db' & cleared & err & Hw & Hwc' & Hwr & -> & ->).
  rewrite Hwc' in Hwc. apply Forall_cons in Hwc as [Hb _].
  unfold pendingRefs. simpl. rewrite Hwc'. simpl.
  rewrite (writeRefs_Get _ _ _ _ _ id Hdb Hb Hid Hwr), Sort_Permutation.
  by rewrite <- !app_assoc.
Qed.

Lemma exec_DataInv db0 hist x ev x' :
  Inv x → DataInv db0 hist x → exec x ev = Some x' →
  writesOk [ev] →
  DataInv db0 (hist ++ accepted [ev]) x'.
Proof.
  intros HI HD Hex Hok id Hid. specialize (HD id Hid).
  destruct ev; simpl accepted; rewrite ?app_nil_r.
  - simpl in Hex. simplify_option_eq. unfold pendingRefs in *. simpl.
    rewrite !refsOf_app, !app_assoc. f_equiv. by rewrite <- !app_assoc.
  - destruct (pendingRefs_Dispatch x x' id HI Hex) as [-> ->]. done.
  - destruct (pendingRefs_DispatchEnd x x' id Hex) as [-> ->]. done.
  - assert (ok = true) as -> by (by apply (Forall_inv Hok)).
    by rewrite (pendingRefs_Write x x' id HI Hid Hex).
  - simpl in Hex. by simplify_option_eq.
  - simpl in Hex. by simplify_option_eq.
  - simpl in Hex. by simplify_option_eq.
  - simpl in Hex. by simplify_option_eq.
  - simpl in Hex. by simplify_option_eq.
  - simpl in Hex. by simplify_option_eq.
Qed.

Lemma writesOk_cons ev evs : writesOk (ev :: evs) ↔ writesOk [ev] ∧ writesOk evs.
Proof.
  unfold writesOk. rewrite Forall_cons, Forall_singleton. done.
Qed.

Lemma run_DataInv db0 evs : ∀ hist x x',
  Inv x → DataInv db0 hist x → run x evs = Some x' → writesOk evs →
  DataInv db0 (hist ++ accepted evs) x'.
Proof.
  induction evs as [|ev evs IH]; intros hist x x' HI HD Hrun Hok; simpl in Hrun.
  - simplify_eq. by rewrite app_nil_r.
  - destruct (exec x ev) as [x1|] eqn:Hex; [|done]. simpl in Hrun.
    apply writesOk_cons in Hok as [Hok1 Hok].
    change (ev :: evs) with ([ev] ++ evs). rewrite accepted_app, app_assoc.
    eapply IH; [by eapply exec_Inv| |done..].
    by eapply exec_DataInv.
Qed.

Lemma NewRefIndex_DataInv db0 : DataInv db0 [] (NewRefIndex db0 []).
Proof.
  intros id _. unfold pendingRefs, refsOf. simpl. by rewrite refsIn_empty.
Qed.

(** After [Close] has returned nothing is pending. *)
Lemma closed_pendingRefs x id :
  Inv x → dbOpen x = false → pendingRefs x id = [].
Proof.
  intros [_ _ _ _ _ _ HwA HwC HwW HdO] Ho.
  destruct (HwW (HdO Ho)) as [Hc Hw]. destruct (HwA (HwC Hc)) as (_ & Ha & Hb).
  unfold pendingRefs. by rewrite Hw, Ha, Hb, refsIn_empty.
Qed.

(** The store after a run that ends with [Close] returned and in which no
    batch write failed. *)
Lemma closed_Get db0 evs x id :
  db_ok db0 → is_int64 id →
  run (NewRefIndex db0 []) evs = Some x → writesOk evs → dbOpen x = false →
  Get (db x) id = sort.Sort (Get db0 id ++ refsOf id (accepted evs)).
Proof.
  intros Hdb0 Hid Hrun Hok Ho.
  pose proof (run_Inv _ _ _ (NewRefIndex_Inv db0 Hdb0) Hrun) as HI.
  pose proof (run_DataInv db0 evs [] _ _ (NewRefIndex_Inv db0 Hdb0)
                (NewRefIndex_DataInv db0) Hrun Hok id Hid) as HD.
  rewrite (closed_pendingRefs x id HI Ho), app_nil_r in HD. simpl in HD.
  destruct (db_ok_Get (db x) id (inv_db x HI)) as [_ Hs].
  apply ascending_unique; [done|apply Sort_StronglySorted|].
  by rewrite Sort_Permutation.
Qed.

(** ** Close returns *)

Lemma exec_Write_enabled x ok buf rest :
  waitWrite x = true → writec x = buf :: rest →
  ∃ x', exec x (Write ok) = Some x' ∧ writec x' = rest ∧ addc x' = addc x
        ∧ addClosed x' = addClosed x ∧ waitAdd x' = waitAdd x
        ∧ writeClosed x' = writeClosed x ∧ waitWrite x' = true
        ∧ dbOpen x' = dbOpen x.
Proof.
  intros Hw Hwc. simpl. rewrite Hw, Hwc. simpl.
  unfold writer_iter. simpl. rewrite writeRefs_eq.
  destruct (levigo.Write _ _ _) as [db' err]. simpl. eauto 10.
Qed.

Lemma exec_Dispatch_enabled x e rest :
  PoolInv x → waitAdd x = true → addc x = e :: rest → writec x = [] →
  ∃ x', exec x Dispatch = Some x' ∧ (length (writec x') ≤ 1)%nat ∧ addc x' = rest
        ∧ addClosed x' = addClosed x ∧ waitAdd x' = true
        ∧ writeClosed x' = writeClosed x ∧ waitWrite x' = waitWrite x
        ∧ dbOpen x' = dbOpen x.
Proof.
  intros [Hpool Hsize] Hw Ha Hwc.
  destruct (dispatch_iter (buffer x) (refCaches x) e) as [[buf out] pool] eqn:Hd.
  destruct (dispatch_iter_spec _ _ _ _ _ _ Hd Hsize Hpool) as (_ & _ & Hcase).
  assert (length out ≤ 1)%nat
    by (destruct Hcase as [(_ & -> & _)|(_ & -> & _)]; simpl; lia).
  destruct (exec x Dispatch) as [x'|] eqn:Hex.
  - exists x'. split; [done|].
    apply exec_Dispatch_inv in Hex
      as (e' & rest' & buf' & out' & pool' & _ & Ha' & Hd' & _ & ->).
    rewrite Ha in Ha'. simplify_eq. rewrite Hd in Hd'. simplify_eq.
    simpl. rewrite Hwc. simpl. split_and!; done.
  - exfalso. simpl in Hex. rewrite Hw, Ha, Hwc, Hd in Hex. simpl in Hex.
    by rewrite option_guard_True in Hex by lia.
Qed.

Lemma exec_DispatchEnd_enabled x :
  waitAdd x = true → addClosed x = true → addc x = [] → writec x = [] →
  ∃ x', exec x DispatchEnd = Some x' ∧ (length (writec x') ≤ 1)%nat ∧ addc x' = []
        ∧ addClosed x' = true ∧ waitAdd x' = false
        ∧ writeClosed x' = writeClosed x ∧ waitWrite x' = waitWrite x
        ∧ dbOpen x' = dbOpen x.
Proof.
  intros Hw Hc Ha Hwc.
  destruct (dispatch_end (buffer x)) as [buf out] eqn:Hd.
  pose proof Hd as Hd0. apply dispatch_end_spec in Hd0 as [-> Hout].
  assert (length out ≤ 1)%nat
    by (destruct Hout as [[-> _]|[-> _]]; simpl; lia).
  destruct (exec x DispatchEnd) as [x'|] eqn:Hex.
  - exists x'. split; [done|].
    apply exec_DispatchEnd_inv in Hex
      as (buf' & out' & _ & _ & _ & Hd' & _ & ->).
    rewrite Hd in Hd'. simplify_eq. simpl. rewrite Hwc. simpl.
    split_and!; done.
  - exfalso. simpl in Hex. rewrite Hw, Hc, Ha, Hwc, Hd in Hex. simpl in Hex.
    by rewrite option_guard_True in Hex by lia.
Qed.

Ltac todo_lt :=
  unfold todo; simpl;
  repeat match goal with
         | H : _ = _ |- _ => rewrite H
         end;
  simpl; repeat case_match; simpl in *; lia.

Lemma close_step x :
  Inv x → dbOpen x = true →
  ∃ ev x', exec x ev = Some x' ∧ (todo x' < todo x)%nat
           ∧ writesOk [ev] ∧ accepted [ev] = [].
Proof.
  intros HI Ho. pose proof HI as [_ _ _ _ Hpool Hsize HwA HwC HwW HdO].
  destruct (waitWrite x) eqn:Hww.
  - destruct (writec x) as [|buf rest] eqn:Hwc.
    + destruct (addClosed x) eqn:Hac.
      * destruct (waitAdd x) eqn:Hwa.
        -- destruct (addc x) as [|e rest] eqn:Ha.
           ++ destruct (exec_DispatchEnd_enabled x) as (x' & Hex & ? & ? & ? & ? & ? & ? & ?);
                [done..|].
              exists DispatchEnd, x'. split; [done|].
              split; [|split; [by apply Forall_singleton|done]].
              todo_lt.
           ++ destruct (exec_Dispatch_enabled x e rest) as (x' & Hex & ? & ? & ? & ? & ? & ? & ?);
                [done..|].
              exists Dispatch, x'. split; [done|].
              split; [|split; [by apply Forall_singleton|done]].
              todo_lt.
        -- destruct (writeClosed x) eqn:Hwcl.
           ++ exists WriterEnd. eexists. simpl. rewrite Hww, Hwcl, Hwc. simpl.
              split; [done|]. split; [|split; [by apply Forall_singleton|done]].
              todo_lt.
           ++ exists CloseWrite. eexists. simpl. rewrite Hac, Hwa, Hwcl. simpl.
              split; [done|]. split; [|split; [by apply Forall_singleton|done]].
              todo_lt.
      * exists CloseAdd. eexists. simpl. rewrite Hac. simpl.
        split; [done|]. split; [|split; [by apply Forall_singleton|done]].
        todo_lt.
    + destruct (exec_Write_enabled x true buf rest) as (x' & Hex & ? & ? & ? & ? & ? & ? & ?);
        [done..|].
      exists (Write true), x'. split; [done|].
      split; [|split; [by apply Forall_singleton|done]].
      todo_lt.
  - destruct (HwW eq_refl) as [Hwcl Hwc].
    exists CloseDb. eexists. simpl. rewrite Hww, Hwcl, Ho. simpl.
    split; [done|]. split; [|split; [by apply Forall_singleton|done]].
    todo_lt.
Qed.

Lemma accepted_cons ev evs : accepted (ev :: evs) = accepted [ev] ++ accepted evs.
Proof. apply (accepted_app [ev] evs). Qed.

Lemma close_returns n : ∀ x,
  (todo x ≤ n)%nat → Inv x →
  ∃ evs x', run x evs = Some x' ∧ dbOpen x' = false
            ∧ writesOk evs ∧ accepted evs = [].
Proof.
  induction n as [|n IH]; intros x Hn HI.
  - exists [], x. unfold todo in Hn. destruct (dbOpen x); [lia|].
    split_and!; [done..|apply Forall_nil_2|done].
  - destruct (dbOpen x) eqn:Ho.
    + destruct (close_step x HI Ho) as (ev & x1 & Hex & Hlt & Hok & Hacc).
      destruct (IH x1) as (evs & x' & Hrun & Hc & Hoks & Haccs);
        [lia|by eapply exec_Inv|].
      exists (ev :: evs), x'. split_and!; [|done| |].
      * simpl. by rewrite Hex.
      * apply writesOk_cons. by split.
      * by rewrite accepted_cons, Hacc, Haccs.
    + exists [], x. split_and!; [done..|apply Forall_nil_2|done].
Qed.

(** ** The pool *)

Lemma NewRefIndex_PoolInv db0 : PoolInv (NewRefIndex db0 []).
Proof. split; simpl; [done|]. by rewrite map_size_empty. Qed.

Lemma exec_PoolInv x ev x' : PoolInv x → exec x ev = Some x' → PoolInv x'.
Proof.
  intros [Hpool Hsize] Hex. destruct ev.
  - simpl in Hex. simplify_option_eq. by split.
  - apply exec_Dispatch_inv in Hex
      as (e & rest & buf & out & pool & Hw & Ha & Hd & Hlen & ->).
    destruct (dispatch_iter_spec _ _ _ _ _ _ Hd Hsize Hpool) as (Hle & Hp' & Hcase).
    split; simpl; [done|].
    destruct Hcase as [(_ & _ & -> & _)|(? & _ & -> & _)]; [done|lia].
  - apply exec_DispatchEnd_inv in Hex
      as (buf & out & Hw & Hc & Ha & Hd & Hlen & ->).
    apply dispatch_end_spec in Hd as [-> Hout]. by split.
  - apply exec_Write_inv in Hex
      as (buf & rest & db' & cleared & err & Hw & Hwc' & Hwr & -> & ->).
    split; simpl; [|done].
    apply Forall_app. split; [done|]. by apply Forall_singleton.
  - simpl in Hex. simplify_option_eq. by split.
  - simpl in Hex. simplify_option_eq. by split.
  - simpl in Hex. simplify_option_eq. by split.
  - simpl in Hex. simplify_option_eq. by split.
  - simpl in Hex. simplify_option_eq. split; simpl; [|done].
    apply Forall_app. split; [done|]. apply Forall_singleton, clearRefs_empty.
  - simpl in Hex. simplify_option_eq. split; simpl; [|done].
    destruct (refCaches x); [done|]. by apply Forall_cons in Hpool as [_ ?].
Qed.

Lemma run_PoolInv evs : ∀ x x', PoolInv x → run x evs = Some x' → PoolInv x'.
Proof.
  induction evs as [|ev evs IH]; intros x x' HI Hrun; simpl in Hrun.
  - by simplify_eq.
  - destruct (exec x ev) as [x1|] eqn:Hex; [|done]. simpl in Hrun.
    eapply IH; [|done]. by eapply exec_PoolInv.
Qed.

(** ** Successive flushes *)

Lemma flushAll_Get bufs : ∀ db0 id,
  db_ok db0 → Forall buffer_ok bufs → is_int64 id →
  ∃ db', flushAll db0 bufs = Some db' ∧ db_ok db'
         ∧ Get db' id = sort.Sort (Get db0 id ++ concat (refsIn id <$> bufs)).
Proof.
  induction bufs as [|b bufs IH]; intros db0 id Hdb Hbufs Hid.
  - exists db0. simpl. rewrite app_nil_r.
    destruct (db_ok_Get db0 id Hdb) as [_ Hs]. by rewrite Sort_id.
  - apply Forall_cons in Hbufs as [Hb Hbufs].
    destruct (writeRefs_total db0 true b) as [[[db1 cl] err] Hw].
    destruct (IH db1 id) as (db' & Hf & Hok & HG);
      [by eapply writeRefs_db_ok|done..|].
    exists db'. simpl. rewrite Hw. simpl. split; [done|]. split; [done|].
    rewrite HG, (writeRefs_Get _ _ _ _ _ id Hdb Hb Hid Hw).
    apply Sort_proper. by rewrite Sort_Permutation, app_assoc.
Qed.

(** ** The writer *)

Lemma writer_iter_failed x buf :
  writer_iter x false buf
  = Some {| db := db x; dbOpen := dbOpen x; buffer := buffer x;
            writec := writec x; addc := addc x;
            addClosed := addClosed x; writeClosed := writeClosed x;
            waitAdd := waitAdd x; waitWrite := waitWrite x;
            logged := logged x ++ [levigo.IOError];
            refCaches := refCaches x ++ [∅] |}.
Proof. unfold writer_iter. by rewrite writeRefs_failed. Qed.

(** ** The diff cache *)

Lemma release_head path stores : DC.release path (path :: stores) = stores.
Proof. simpl. by rewrite decide_True. Qed.

Lemma DC_Close_fields w c :
  (DC.Close w c).2 = DC.mkDiffCache (DC.Dir c) None None (DC.opened c).
Proof. unfold DC.Close. destruct c as [d [i|] [j|] o]; done. Qed.

Lemma DC_Close_dirs w c : os.dirs (DC.Close w c).1 = os.dirs w.
Proof. unfold DC.Close. destruct c as [d [i|] [j|] o]; done. Qed.

Lemma DC_Open_fields w c f g :
  DC.Dir (DC.Open w c f g).1.2 = DC.Dir c
  ∧ (DC.opened c = true → DC.opened (DC.Open w c f g).1.2 = true).
Proof.
  unfold DC.Open, DC.NewCoordsRefIndex, DC.NewWaysRefIndex, DC.NewRefIndex, DC.Close.
  destruct c as [d [i|] [j|] o], f as [e|], g as [e'|]; done.
Qed.

Lemma DC_Remove_fields w c f g :
  DC.Dir (DC.Remove w c f g).1.2 = DC.Dir c
  ∧ DC.opened (DC.Remove w c f g).1.2 = DC.opened c.
Proof.
  unfold DC.Remove, DC.Close, os.RemoveAll.
  destruct c as [d [i|] [j|] [|]], f as [e|], g as [e'|]; done.
Qed.

Lemma DC_step_opened wc o :
  DC.opened wc.2 = true →
  DC.opened (DC.step wc o).2 = true ∧ DC.Dir (DC.step wc o).2 = DC.Dir wc.2.
Proof.
  intros Ho. destruct o as [f g| |f g]; simpl.
  - destruct (DC_Open_fields wc.1 wc.2 f g) as [? ?]. auto.
  - by rewrite DC_Close_fields.
  - destruct (DC_Remove_fields wc.1 wc.2 f g) as [? ?]. split; [congruence|done].
Qed.

Lemma DC_steps_opened ops : ∀ wc,
  DC.opened wc.2 = true →
  DC.opened (DC.steps wc ops).2 = true ∧ DC.Dir (DC.steps wc ops).2 = DC.Dir wc.2.
Proof.
  induction ops as [|o ops IH]; intros wc Ho; [done|].
  unfold DC.steps. simpl. fold (DC.steps (DC.step wc o) ops).
  destruct (DC_step_opened wc o Ho) as [Ho' Hd'].
  destruct (IH (DC.step wc o) Ho') as [? ?]. split; [done|congruence].
Qed.

(** ** Examples *)

Example MarshalRefs_ex : MarshalRefs [10; 1000; 1000; 70000] = Some [20; 188; 15; 0; 144; 182; 8].
Proof. reflexivity. Qed.

Example UnmarshalRefs_ex : UnmarshalRefs [20; 188; 15; 0; 144; 182; 8] = [10; 1000; 1000; 70000].
Proof. reflexivity. Qed.

(* ===================================================================== *)
(** * The claims of the specification *)
(* ===================================================================== *)

(** C1.  Merge across flushes: after any sequence of flushes of buffers as
    [addToCache] builds them, the record persisted for an id is the
    ascending list of what the store held for it and of every ref batch
    flushed for it, duplicates kept: a flush merges into the persisted
    record, it never replaces it.  The merge step reads the persisted
    bytes (none when the key is absent), decodes them, appends the pending
    refs, sorts and encodes. *)
Theorem C1_merge_across_flushes
    (db0 : gmap (list Z) (list Z)) (bufs : list (gmap Z (list Z))) (id : Z) :
  db_ok db0 → Forall buffer_ok bufs → is_int64 id →
  (∃ db', flushAll db0 bufs = Some db'
          ∧ Sorted Z.le (Get db' id)
          ∧ Get db' id ≡ₚ Get db0 id ++ concat (refsIn id <$> bufs))
  ∧ (∀ db keyBuf newRefs,
        loadAppendMarshal db keyBuf newRefs
        = MarshalRefs (match db !! keyBuf with
                       | None => newRefs
                       | Some data => sort.Sort (UnmarshalRefs data ++ newRefs)
                       end)).
Proof.
  intros Hdb Hbufs Hid. split.
  - destruct (flushAll_Get bufs db0 id Hdb Hbufs Hid) as (db' & Hf & _ & HG).
    exists db'. split; [done|]. rewrite HG. split.
    + apply StronglySorted_Sorted, Sort_StronglySorted.
    + apply Sort_Permutation.
  - intros db keyBuf newRefs. unfold loadAppendMarshal. by destruct (db !! keyBuf).
Qed.

Lemma C1_merge_across_flushes_witness :
  (∃ db', flushAll ∅ [{[5 := [10]]}; {[5 := [3]]}] = Some db'
          ∧ Sorted Z.le (Get db' 5)
          ∧ Get db' 5 ≡ₚ Get ∅ 5 ++ concat (refsIn 5 <$> [{[5 := [10]]}; {[5 := [3]]}]))
  ∧ (from_option (λ db', Get db' 5) [] (flushAll ∅ [{[5 := [10]]}; {[5 := [3]]}])
     = [3; 10]).
Proof.
  split; [|by vm_compute].
  apply (C1_merge_across_flushes ∅ [{[5 := [10]]}; {[5 := [3]]}] 5).
  - apply map_Forall_empty.
  - repeat apply Forall_cons_2; try apply Forall_nil_2;
      apply map_Forall_singleton; (split; [by vm_compute|]);
      (split; [|repeat constructor]); apply Forall_singleton; by vm_compute.
  - by vm_compute.
Defined.

(** C2.  Round trip of the delta codec: for every sequence [s] of signed
    64-bit integers, ascending or not, repeats allowed, [MarshalRefs]
    does not panic and [UnmarshalRefs] gives [s] back from its result.
    The bytes written are, for each value, the variable-length integer of
    the zigzag of its difference from the previous value (the first from
    zero): groups of seven bits, least-significant first, the
    continuation bit set on all but the final byte. *)
Theorem C2_delta_codec_round_trip (s : list Z) :
  Forall is_int64 s →
  (∃ data, MarshalRefs s = Some data ∧ UnmarshalRefs data = s
           ∧ data = concat (varint_spec <$> deltas 0 s))
  ∧ Forall (λ d, ∃ front final,
              varint_spec d = front ++ [final]
              ∧ Forall (λ b, 128 ≤ b < 256) front ∧ 0 ≤ final < 128
              ∧ base128 (varint_spec d) = zigzag_spec d) (deltas 0 s).
Proof.
  intros Hs. split.
  - exists (encodeRefs 0 s). split; [apply MarshalRefs_encode|].
    split; [by apply UnmarshalRefs_encode | apply encodeRefs_deltas].
  - eapply Forall_impl; [apply deltas_int64|]. intros d Hd. simpl in Hd.
    pose proof (zigzag_spec_bound d Hd) as Hb.
    destruct (uvarint_bytes_shape 9 (zigzag_spec d) Hb)
      as (front & final & Heq & Hf & Hl).
    exists front, final. do 3 (split; [done|]).
    by apply (base128_uvarint_bytes 9).
Qed.

Lemma C2_delta_codec_round_trip_witness :
  Forall is_int64 [-5; -5; 10; 1000; 70000; 2 ^ 63 - 1]
  ∧ ∃ data, MarshalRefs [-5; -5; 10; 1000; 70000; 2 ^ 63 - 1] = Some data
            ∧ UnmarshalRefs data = [-5; -5; 10; 1000; 70000; 2 ^ 63 - 1].
Proof.
  assert (H : Forall is_int64 [-5; -5; 10; 1000; 70000; 2 ^ 63 - 1])
    by (repeat apply Forall_cons_2; try apply Forall_nil_2; by vm_compute).
  split; [done|].
  destruct (C2_delta_codec_round_trip _ H) as [(data & Hm & Hu & _) _].
  exists data. split; [exact Hm | exact Hu].
Defined.

(** C3 as the specification states it fails.  [[20; 188; 15]] encodes
    [[10; 1000]]; cut inside its second integer, [[20; 188]], it decodes to
    [[10]], the very value the intact encoding [[20]] of [[10]] decodes
    to: the caller gets no error, the error goes to the log only. *)
Lemma C3_counterexample :
  MarshalRefs [10; 1000] = Some [20; 188; 15]
  ∧ UnmarshalRefs_logged [20; 188] = ([10], [ErrUnexpectedEOF])
  ∧ MarshalRefs [10] = Some [20]
  ∧ UnmarshalRefs [20; 188] = UnmarshalRefs [20].
Proof. by vm_compute. Qed.

(** C3, amended.  [UnmarshalRefs] returns a list and no error.  On the
    encoding of [s ++ [v]] cut anywhere inside its last variable-length
    integer it returns [s], the shorter sequence it also returns for the
    intact encoding of [s], and hands [io.ErrUnexpectedEOF] to the log. *)
Theorem C3_truncated_input_decodes_to_prefix (s : list Z) (v : Z) (k : nat) :
  Forall is_int64 (s ++ [v]) →
  (length (encodeRefs 0 s) < k < length (encodeRefs 0 (s ++ [v])))%nat →
  MarshalRefs (s ++ [v]) = Some (encodeRefs 0 (s ++ [v]))
  ∧ UnmarshalRefs_logged (take k (encodeRefs 0 (s ++ [v]))) = (s, [ErrUnexpectedEOF])
  ∧ UnmarshalRefs (take k (encodeRefs 0 (s ++ [v]))) = UnmarshalRefs (encodeRefs 0 s).
Proof.
  intros Hsv Hk. split; [apply MarshalRefs_encode|].
  pose proof (UnmarshalRefs_logged_truncated s v k Hsv Hk) as Ht.
  split; [done|]. unfold UnmarshalRefs at 1. rewrite Ht. simpl.
  apply Forall_app in Hsv as [Hs _]. by rewrite UnmarshalRefs_encode.
Qed.

Lemma C3_truncated_input_decodes_to_prefix_witness :
  UnmarshalRefs_logged (take 2 (encodeRefs 0 ([10] ++ [1000])))
  = ([10], [ErrUnexpectedEOF]).
Proof.
  refine (proj1 (proj2 (C3_truncated_input_decodes_to_prefix [10] 1000 2 _ _))).
  - repeat apply Forall_cons_2; try apply Forall_nil_2; by vm_compute.
  - vm_compute. lia.
Defined.

(** C4.  Insertion order independence: two runs of the index that accept,
    for one id, the same refs in any order end, once [Close] has returned,
    with the same ascending list from [Get] for that id.  The buffering
    stage puts each ref at its sorted position: [insertRefs] keeps an
    ascending list ascending and drops no duplicate. *)
Theorem C4_insertion_order_independence
    (db0 : gmap (list Z) (list Z)) (evs1 evs2 : list event)
    (x1 x2 : RefIndex) (id : Z) :
  db_ok db0 → is_int64 id →
  run (NewRefIndex db0 []) evs1 = Some x1 →
  run (NewRefIndex db0 []) evs2 = Some x2 →
  writesOk evs1 → writesOk evs2 →
  dbOpen x1 = false → dbOpen x2 = false →
  refsOf id (accepted evs1) ≡ₚ refsOf id (accepted evs2) →
  Get (db x1) id = Get (db x2) id
  ∧ Sorted Z.le (Get (db x1) id)
  ∧ Get (db x1) id ≡ₚ Get db0 id ++ refsOf id (accepted evs1)
  ∧ (∀ refs ref, Sorted Z.le refs →
       Sorted Z.le (insertRefs refs ref) ∧ insertRefs refs ref ≡ₚ ref :: refs).
Proof.
  intros Hdb Hid Hr1 Hr2 Hok1 Hok2 Hc1 Hc2 Hperm.
  rewrite (closed_Get db0 evs1 x1 id), (closed_Get db0 evs2 x2 id) by done.
  split; [apply Sort_proper; by rewrite Hperm|].
  split; [apply StronglySorted_Sorted, Sort_StronglySorted|].
  split; [apply Sort_Permutation|].
  intros refs ref Hs. split; [|apply insertRefs_Permutation].
  apply StronglySorted_Sorted, insertRefs_StronglySorted.
  by apply Sorted_StronglySorted; [apply _|].
Qed.

Lemma C4_insertion_order_independence_witness :
  let close := [CloseAdd; Dispatch; Dispatch; Dispatch; DispatchEnd;
                Write true; CloseWrite; WriterEnd; CloseDb] in
  let evs1 := [Add (IdRef 5 10); Add (IdRef 5 3); Add (IdRef 5 10)] ++ close in
  let evs2 := [Add (IdRef 5 3); Add (IdRef 5 10); Add (IdRef 5 10)] ++ close in
  ∃ x1 x2,
    run (NewRefIndex ∅ []) evs1 = Some x1
    ∧ run (NewRefIndex ∅ []) evs2 = Some x2
    ∧ Get (db x1) 5 = Get (db x2) 5.
Proof.
  intros close evs1 evs2.
  destruct (run (NewRefIndex ∅ []) evs1) as [x1|] eqn:H1; [|by vm_compute in H1].
  destruct (run (NewRefIndex ∅ []) evs2) as [x2|] eqn:H2; [|by vm_compute in H2].
  exists x1, x2. split; [exact eq_refl|]. split; [exact eq_refl|].
  assert (Hdb : db_ok ∅) by apply map_Forall_empty.
  assert (Hid : is_int64 5) by (unfold is_int64; lia).
  assert (Hok1 : writesOk evs1) by (repeat constructor).
  assert (Hok2 : writesOk evs2) by (repeat constructor).
  assert (Hc1 : dbOpen x1 = false).
  { assert (Hc : dbOpen <$> run (NewRefIndex ∅ []) evs1 = Some false)
      by (vm_compute; reflexivity).
    rewrite H1 in Hc. by injection Hc. }
  assert (Hc2 : dbOpen x2 = false).
  { assert (Hc : dbOpen <$> run (NewRefIndex ∅ []) evs2 = Some false)
      by (vm_compute; reflexivity).
    rewrite H2 in Hc. by injection Hc. }
  assert (Hp : refsOf 5 (accepted evs1) ≡ₚ refsOf 5 (accepted evs2)).
  { apply (bool_decide_unpack _). vm_compute. exact I. }
  exact (proj1 (C4_insertion_order_independence ∅ evs1 evs2 x1 x2 5
                  Hdb Hid H1 H2 Hok1 Hok2 Hc1 Hc2 Hp)).
Defined.

(** C5.  Threshold-independent durability: whatever [add] has accepted,
    however few ids the live buffer holds, [Close] can run to its end,
    and once it has returned the pipeline is empty and, as long as no
    batch write failed, [Get] gives for every id the ascending list of
    what the store held for it at the start and of every ref accepted for
    it. *)
Theorem C5_close_persists_accepted_entries
    (db0 : gmap (list Z) (list Z)) (evs : list event) (x : RefIndex) :
  db_ok db0 →
  run (NewRefIndex db0 []) evs = Some x →
  writesOk evs →
  (∃ evs' x', run x evs' = Some x' ∧ accepted evs' = []
              ∧ writesOk evs' ∧ dbOpen x' = false)
  ∧ (∀ evs' x',
       run x evs' = Some x' → writesOk evs' → dbOpen x' = false →
       addc x' = [] ∧ buffer x' = ∅ ∧ writec x' = []
       ∧ ∀ id, is_int64 id →
           Get (db x') id
           = sort.Sort (Get db0 id ++ refsOf id (accepted (evs ++ evs')))).
Proof.
  intros Hdb Hrun Hok.
  pose proof (run_Inv _ _ _ (NewRefIndex_Inv db0 Hdb) Hrun) as HI.
  split.
  { destruct (close_returns (todo x) x) as (evs' & x' & ? & ? & ? & ?); [done..|].
    by exists evs', x'. }
  intros evs' x' Hrun' Hok' Hc.
  pose proof (run_Inv _ _ _ HI Hrun') as HI'.
  destruct HI' as [_ _ _ _ _ _ HwA HwC HwW HdO].
  destruct (HwW (HdO Hc)) as [Hwc Hw]. destruct (HwA (HwC Hwc)) as (_ & Ha & Hb).
  split_and!; [done..|].
  intros id Hid. apply closed_Get; [done..| | |done].
  - by rewrite run_app, Hrun.
  - by apply Forall_app.
Qed.

Lemma C5_close_persists_accepted_entries_witness :
  let evs := [Add (IdRef 5 10); Dispatch; Add (IdRef 7 (-4)); Add (IdRef 5 3)] in
  ∃ x, run (NewRefIndex ∅ []) evs = Some x
       ∧ ∃ evs' x', run x evs' = Some x' ∧ accepted evs' = []
                    ∧ writesOk evs' ∧ dbOpen x' = false.
Proof.
  intros evs.
  destruct (run (NewRefIndex ∅ []) evs) as [x|] eqn:H1; [|by vm_compute in H1].
  exists x. split; [exact eq_refl|].
  assert (Hdb : db_ok ∅) by apply map_Forall_empty.
  assert (Hok : writesOk evs) by (repeat constructor).
  exact (proj1 (C5_close_persists_accepted_entries ∅ evs x Hdb H1 Hok)).
Defined.

(** C6 as the specification states it fails.  The writer is given two
    buffers; the batch write of the first fails.  The failure is logged
    and the writer goes on: the second buffer is flushed, and the refs of
    the first are lost. *)
Lemma C6_counterexample :
  ∃ x', writer (NewRefIndex ∅ []) [{[5 := [10]]}; {[7 := [3]]}] [false; true]
        = Some x'
        ∧ logged x' = [levigo.IOError]
        ∧ Get (db x') 5 = [] ∧ Get (db x') 7 = [3].
Proof.
  destruct (writer _ _ _) as [x'|] eqn:Hw; [|by vm_compute in Hw].
  exists x'. split; [exact eq_refl|].
  assert (H : (λ x', (logged x', Get (db x') 5, Get (db x') 7))
              <$> writer (NewRefIndex ∅ []) [{[5 := [10]]}; {[7 := [3]]}] [false; true]
              = Some ([levigo.IOError], [], [3])) by (vm_compute; reflexivity).
  rewrite Hw in H. injection H as H1 H2 H3. by rewrite H1, H2, H3.
Qed.

(** C6, amended.  A failure of the final batch write is what [writeRefs]
    returns; the store is left as it was and the flushed buffer is
    emptied and recycled all the same.  The writer logs the failure and
    keeps running: it takes the buffers that follow, one after the other. *)
Theorem C6_write_failure_is_logged_and_writer_continues
    (x : RefIndex) (buf : gmap Z (list Z)) (rest : list (gmap Z (list Z))) :
  waitWrite x = true → writec x = buf :: rest →
  writeRefs (db x) false buf = Some (db x, ∅, Some levigo.IOError)
  ∧ (∃ x', exec x (Write false) = Some x'
           ∧ db x' = db x
           ∧ logged x' = logged x ++ [levigo.IOError]
           ∧ refCaches x' = refCaches x ++ [∅]
           ∧ writec x' = rest ∧ waitWrite x' = true
           ∧ (rest ≠ [] → ∀ ok, is_Some (exec x' (Write ok))))
  ∧ (∀ y bufs oks,
       writer y (buf :: bufs) (false :: oks)
       = writer {| db := db y; dbOpen := dbOpen y; buffer := buffer y;
                   writec := writec y; addc := addc y;
                   addClosed := addClosed y; writeClosed := writeClosed y;
                   waitAdd := waitAdd y; waitWrite := waitWrite y;
                   logged := logged y ++ [levigo.IOError];
                   refCaches := refCaches y ++ [∅] |} bufs oks).
Proof.
  intros Hw Hwc. split; [apply writeRefs_failed|]. split.
  - set (x1 := {| db := db x; dbOpen := dbOpen x; buffer := buffer x;
                    writec := rest; addc := addc x;
                    addClosed := addClosed x; writeClosed := writeClosed x;
                    waitAdd := waitAdd x; waitWrite := waitWrite x;
                    logged := logged x ++ [levigo.IOError];
                    refCaches := refCaches x ++ [∅] |}).
    exists x1. split.
    { unfold x1. simpl. rewrite Hw, Hwc. simpl. by rewrite writer_iter_failed. }
    do 5 (split; [done|]).
    intros Hrest ok. destruct rest as [|b rest']; [done|].
    destruct (exec_Write_enabled x1 ok b rest') as (x'' & Hex & _); [done..|].
    rewrite Hex. eauto.
  - intros y bufs oks. simpl. by rewrite writer_iter_failed.
Qed.

Lemma C6_write_failure_is_logged_and_writer_continues_witness :
  let x := {| db := ∅; dbOpen := true; buffer := ∅;
              writec := [{[5 := [10]]}; {[7 := [3]]}]; addc := [];
              addClosed := false; writeClosed := false;
              waitAdd := true; waitWrite := true;
              logged := []; refCaches := [] |} in
  ∃ x', exec x (Write false) = Some x'
        ∧ db x' = db x
        ∧ logged x' = logged x ++ [levigo.IOError]
        ∧ refCaches x' = refCaches x ++ [∅]
        ∧ writec x' = [{[7 := [3]]}] ∧ waitWrite x' = true
        ∧ ([{[7 := [3]]} : gmap Z (list Z)] ≠ [] →
           ∀ ok, is_Some (exec x' (Write ok))).
Proof.
  intros x.
  refine (proj1 (proj2 (C6_write_failure_is_logged_and_writer_continues
                          x {[5 := [10]]} [{[7 := [3]]}] _ _))); reflexivity.
Defined.

(** C7.  The live buffer never holds more than 65,536 distinct ids.
    Between two iterations of the buffering stage it holds fewer; the
    iteration that brings it to exactly 65,536 hands it to the flush stage
    and goes on with an empty buffer, the one in the pool when there is
    one (which leaves the pool), a fresh one otherwise; any other
    iteration hands nothing over. *)
Theorem C7_live_buffer_bounded
    (db0 : gmap (list Z) (list Z)) (evs : list event) (x : RefIndex) :
  run (NewRefIndex db0 []) evs = Some x →
  cacheSize = 65536
  ∧ Z.of_nat (size (buffer x)) < cacheSize
  ∧ ∀ x', exec x Dispatch = Some x' →
      ∃ e rest, addc x = e :: rest ∧ addc x' = rest
        ∧ Z.of_nat (size (addToCache (buffer x) (idRef_id e) (idRef_ref e)))
          ≤ cacheSize
        ∧ ((Z.of_nat (size (addToCache (buffer x) (idRef_id e) (idRef_ref e)))
            = cacheSize
            ∧ writec x' = writec x ++ [addToCache (buffer x) (idRef_id e) (idRef_ref e)]
            ∧ buffer x' = ∅ ∧ refCaches x' = tail (refCaches x))
           ∨ (Z.of_nat (size (addToCache (buffer x) (idRef_id e) (idRef_ref e)))
              < cacheSize
              ∧ writec x' = writec x
              ∧ buffer x' = addToCache (buffer x) (idRef_id e) (idRef_ref e)
              ∧ refCaches x' = refCaches x)).
Proof.
  intros Hrun.
  destruct (run_PoolInv _ _ _ (NewRefIndex_PoolInv db0) Hrun) as [Hpool Hsize].
  split; [done|]. split; [done|].
  intros x' Hex. apply exec_Dispatch_inv in Hex
    as (e & rest & buf & out & pool & Hw & Ha & Hd & Hlen & ->).
  destruct (dispatch_iter_spec _ _ _ _ _ _ Hd Hsize Hpool) as (Hle & _ & Hcase).
  exists e, rest. simpl. split; [done|]. split; [done|]. split; [done|].
  destruct Hcase as [(? & -> & -> & ->)|(? & -> & -> & ->)]; [left|right].
  - done.
  - by rewrite app_nil_r.
Qed.

Lemma C7_live_buffer_bounded_witness :
  ∃ x, run (NewRefIndex ∅ []) [Add (IdRef 5 10); Add (IdRef 6 10); Dispatch] = Some x
       ∧ Z.of_nat (size (buffer x)) < cacheSize.
Proof.
  destruct (run _ _) as [x|] eqn:H1; [|by vm_compute in H1].
  exists x. split; [exact eq_refl|].
  exact (proj1 (proj2 (C7_live_buffer_bounded ∅ _ x H1))).
Defined.

(** C9.  Every buffer in the recycle pool is empty: [writeRefs] deletes
    every entry of the buffer it has flushed before it offers it to the
    pool, whatever the outcome of the batch write, and so does every
    other index; the buffer the buffering stage goes on with after a
    hand-over holds nothing. *)
Theorem C9_recycled_buffers_are_empty
    (db0 : gmap (list Z) (list Z)) (evs : list event) (x : RefIndex) :
  run (NewRefIndex db0 []) evs = Some x →
  Forall (λ b, b = ∅) (refCaches x)
  ∧ (∀ d ok b d' cleared err,
       writeRefs d ok b = Some (d', cleared, err) → cleared = ∅)
  ∧ (∀ b, clearRefs b = ∅)
  ∧ (∀ x', exec x Dispatch = Some x' → writec x' ≠ writec x → buffer x' = ∅).
Proof.
  intros Hrun.
  destruct (run_PoolInv _ _ _ (NewRefIndex_PoolInv db0) Hrun) as [Hpool Hsize].
  split; [done|]. split; [|split; [apply clearRefs_empty|]].
  - intros d ok b d' cleared err Hw. rewrite writeRefs_eq in Hw.
    destruct (levigo.Write _ _ _). by simplify_eq.
  - intros x' Hex Hne. apply exec_Dispatch_inv in Hex
      as (e & rest & buf & out & pool & Hw & Ha & Hd & Hlen & ->).
    destruct (dispatch_iter_spec _ _ _ _ _ _ Hd Hsize Hpool) as (_ & _ & Hcase).
    simpl in *. destruct Hcase as [(_ & _ & -> & _)|(_ & -> & _)]; [done|].
    by rewrite app_nil_r in Hne.
Qed.

Lemma C9_recycled_buffers_are_empty_witness :
  ∃ x, run (NewRefIndex ∅ [])
         [Offer {[1 := [2; 3]]}; Add (IdRef 5 10); CloseAdd; Dispatch;
          DispatchEnd; Write true] = Some x
       ∧ Forall (λ b, b = ∅) (refCaches x) ∧ length (refCaches x) = 2%nat.
Proof.
  destruct (run _ _) as [x|] eqn:H1; [|by vm_compute in H1].
  exists x. split; [exact eq_refl|]. split.
  - exact (proj1 (C9_recycled_buffers_are_empty ∅ _ x H1)).
  - assert (H : length ∘ refCaches <$> run (NewRefIndex ∅ [])
         [Offer {[1 := [2; 3]]}; Add (IdRef 5 10); CloseAdd; Dispatch;
          DispatchEnd; Write true] = Some 2%nat) by (vm_compute; reflexivity).
    rewrite H1 in H. injection H as H. exact H.
Defined.

(** C8 as the specification states it fails.  A cache is opened, closed,
    and opened again; this time the first store does not open.  [Open]
    returns the failure and both index fields are nil, but the cache is
    still marked opened, by the earlier [Open]. *)
Lemma C8_counterexample :
  let r1 := DC.Open (os.mkWorld ∅ []) (DC.NewDiffCache "d") None None in
  let wc := DC.Close r1.1.1 r1.1.2 in
  let r2 := DC.Open wc.1 wc.2 (Some os.ErrOpen) None in
  r1.2 = None
  ∧ r2.2 = Some os.ErrOpen
  ∧ DC.Coords r2.1.2 = None ∧ DC.Ways r2.1.2 = None
  ∧ DC.opened r2.1.2 = true.
Proof. by vm_compute. Qed.

(** C8, amended.  When opening either index fails, [Open] returns that
    failure, both index fields are nil and the index that had been opened
    is closed again (a cache whose indices were nil holds no store open
    afterwards that was not open before).  The opened flag is left as it
    was before the call: [Open] does not set it on this path and nothing
    clears it, so the cache is not marked opened exactly when no earlier
    [Open] on it had succeeded. *)
Theorem C8_Open_failure_leaves_nothing_open
    (w w' : os.World) (c c' : DC.DiffCache)
    (failCoords failWays : option os.error) (err : os.error) :
  DC.Open w c failCoords failWays = (w', c', Some err) →
  DC.Coords c' = None ∧ DC.Ways c' = None ∧ DC.opened c' = DC.opened c
  ∧ (failCoords = Some err ∨ failCoords = None ∧ failWays = Some err)
  ∧ (DC.Coords c = None → DC.Ways c = None →
     os.openStores w' = os.openStores w).
Proof.
  unfold DC.Open, DC.NewCoordsRefIndex, DC.NewWaysRefIndex, DC.NewRefIndex, DC.Close.
  intros H.
  destruct c as [d [i|] [j|] o], failCoords as [e|], failWays as [e'|];
    simpl in *; simplify_eq; split_and!; try done; auto;
    intros; simplify_eq; simpl; by rewrite ?decide_True.
Qed.

Lemma C8_Open_failure_leaves_nothing_open_witness :
  let r := DC.Open (os.mkWorld ∅ []) (DC.NewDiffCache "d") None (Some os.ErrOpen) in
  r.2 = Some os.ErrOpen
  ∧ DC.Coords r.1.2 = None ∧ DC.Ways r.1.2 = None ∧ DC.opened r.1.2 = false
  ∧ os.openStores r.1.1 = [].
Proof.
  intros r. split; [reflexivity|].
  destruct (C8_Open_failure_leaves_nothing_open
              (os.mkWorld ∅ []) r.1.1 (DC.NewDiffCache "d") r.1.2
              None (Some os.ErrOpen) os.ErrOpen)
    as (H1 & H2 & H3 & _ & H5); [reflexivity|].
  split_and!; [done..|]. by apply H5.
Defined.

(** C10.  Once [Open] has succeeded on a cache, [Exists] returns true
    whatever is done with the cache afterwards ([Open], [Close],
    [Remove], failing or not): the opened flag is set and nothing clears
    it.  In particular it returns true after a [Remove] that has deleted
    both store directories. *)
Theorem C10_Exists_true_after_Open
    (w w1 : os.World) (c c1 : DC.DiffCache)
    (failCoords failWays : option os.error) (ops : list DC.op) :
  DC.Open w c failCoords failWays = (w1, c1, None) →
  DC.opened c1 = true
  ∧ DC.Exists (DC.steps (w1, c1) ops).1 (DC.steps (w1, c1) ops).2 = true
  ∧ (let r := DC.Remove (DC.steps (w1, c1) ops).1 (DC.steps (w1, c1) ops).2
                  None None in
     r.2 = None
     ∧ (os.Join (DC.Dir c) "coords_index" ∉ os.dirs r.1.1)
     ∧ (os.Join (DC.Dir c) "ways_index" ∉ os.dirs r.1.1)
     ∧ DC.Exists r.1.1 r.1.2 = true).
Proof.
  intros HO.
  assert (Ho1 : DC.opened c1 = true ∧ DC.Dir c1 = DC.Dir c).
  { revert HO. unfold DC.Open, DC.NewCoordsRefIndex, DC.NewWaysRefIndex,
      DC.NewRefIndex, DC.Close.
    destruct c as [d [i|] [j|] o], failCoords as [e|], failWays as [e'|];
      simpl; intros; by simplify_eq. }
  destruct Ho1 as [Ho1 Hd1]. split; [done|].
  destruct (DC_steps_opened ops (w1, c1) Ho1) as [Ho2 Hd2]. simpl in Hd2.
  destruct (DC.steps (w1, c1) ops) as [w2 c2]. simpl in *.
  split; [unfold DC.Exists; by rewrite Ho2|].
  destruct (DC_Remove_fields w2 c2 None None) as [Hd3 Ho3].
  unfold DC.Exists. rewrite Ho3, Ho2.
  unfold DC.Remove, os.RemoveAll. rewrite Ho2.
  destruct (DC.Close w2 c2) as [w3 c3] eqn:Hc. simpl.
  pose proof (DC_Close_fields w2 c2) as Hf. rewrite Hc in Hf. simpl in Hf.
  subst c3. simpl. rewrite Hd2, Hd1.
  split_and!; [done| | |done];
    rewrite !elem_of_difference, !elem_of_singleton; intuition congruence.
Qed.

Lemma C10_Exists_true_after_Open_witness :
  let r := DC.Open (os.mkWorld ∅ []) (DC.NewDiffCache "d") None None in
  let wc := DC.steps r.1 [DC.OpClose; DC.OpRemove None None] in
  r.2 = None ∧ os.dirs wc.1 = ∅ ∧ DC.Exists wc.1 wc.2 = true.
Proof.
  intros r wc. split; [reflexivity|]. split; [by vm_compute|].
  refine (proj1 (proj2 (C10_Exists_true_after_Open
                          (os.mkWorld ∅ []) r.1.1 (DC.NewDiffCache "d") r.1.2
                          None None [DC.OpClose; DC.OpRemove None None] _))).
  reflexivity.
Defined.

(* ===================================================================== *)
(** * Further properties of the code *)
(* ===================================================================== *)

(** ** The codec *)

Lemma varint_spec_length d :
  is_int64 d → (1 ≤ length (varint_spec d) ≤ MaxVarintLen64)%nat.
Proof.
  intros Hd. unfold varint_spec. split; [|apply uvarint_bytes_length].
  destruct (uvarint_bytes_shape 9 (zigzag_spec d) (zigzag_spec_bound d Hd))
    as (front & final & Heq & _).
  change (S 9) with MaxVarintLen64 in Heq. rewrite Heq, length_app. simpl. lia.
Qed.

Lemma encodeRefs_length_bounds last refs :
  (length refs ≤ length (encodeRefs last refs) ≤ MaxVarintLen64 * length refs)%nat.
Proof.
  revert last. induction refs as [|ref refs IH]; intros last; [simpl; lia|].
  cbn [encodeRefs]. fold (varint_spec (int64 (ref - last))).
  rewrite length_app. specialize (IH ref).
  pose proof (varint_spec_length (int64 (ref - last)) (int64_is_int64 _)) as Hv.
  cbn [length]. change MaxVarintLen64 with 10%nat in *. lia.
Qed.

(** X1.  [MarshalRefs] never panics and writes between one and ten bytes
    for each value; the encoding is empty for the empty list only. *)
Theorem X1_MarshalRefs_size (refs : list Z) :
  ∃ data, MarshalRefs refs = Some data
          ∧ (length refs ≤ length data ≤ 10 * length refs)%nat
          ∧ (data = [] ↔ refs = []).
Proof.
  exists (encodeRefs 0 refs). split; [apply MarshalRefs_encode|].
  pose proof (encodeRefs_length_bounds 0 refs) as Hb.
  change (Init.Nat.mul MaxVarintLen64) with (Init.Nat.mul 10) in Hb.
  split; [exact Hb|]. split.
  - intros Heq. rewrite Heq in Hb. simpl in Hb.
    destruct refs; [done|simpl in Hb; lia].
  - by intros ->.
Qed.

(** X2.  Distinct lists of int64 values have distinct encodings. *)
Theorem X2_MarshalRefs_injective (s1 s2 : list Z) :
  Forall is_int64 s1 → Forall is_int64 s2 →
  MarshalRefs s1 = MarshalRefs s2 → s1 = s2.
Proof.
  intros H1 H2. rewrite !MarshalRefs_encode. intros [= Heq].
  by rewrite <- (UnmarshalRefs_encode s1), <- (UnmarshalRefs_encode s2), Heq.
Qed.

Lemma X2_MarshalRefs_injective_witness :
  MarshalRefs [3; 10] = MarshalRefs (insertRefs [10] 3)
  ∧ [3; 10] = insertRefs [10] 3.
Proof.
  assert (H : MarshalRefs [3; 10] = MarshalRefs (insertRefs [10] 3))
    by (vm_compute; reflexivity).
  split; [exact H|].
  apply (X2_MarshalRefs_injective [3; 10] (insertRefs [10] 3));
    [apply (bool_decide_unpack _); vm_compute; exact I..|exact H].
Defined.

Lemma varint_spec_small d : - 64 ≤ d < 64 → length (varint_spec d) = 1%nat.
Proof.
  intros Hd. unfold varint_spec.
  assert (Hi : is_int64 d) by (unfold is_int64; pow2; lia).
  rewrite zigzag_spec_eq by done.
  assert (Hz : 0 ≤ zigzag d < 128)
    by (rewrite zigzag_value by done; destruct (Z.ltb_spec d 0); lia).
  assert (Hlt : (128 <=? zigzag d) = false) by (apply Z.leb_gt; lia).
  change MaxVarintLen64 with (S 9). cbn [uvarint_bytes]. by rewrite Hlt.
Qed.

Lemma deltas_length last refs : length (deltas last refs) = length refs.
Proof.
  revert last. induction refs as [|r refs IH]; intros last; simpl; [done|].
  by rewrite IH.
Qed.

(** X3.  Close values are compact: when every difference between
    successive values (the first from zero) lies in [-64, 63], the
    encoding takes exactly one byte for each value. *)
Theorem X3_MarshalRefs_one_byte_per_small_delta (refs : list Z) :
  Forall (λ d, - 64 ≤ d < 64) (deltas 0 refs) →
  ∃ data, MarshalRefs refs = Some data ∧ length data = length refs.
Proof.
  intros Hd. exists (encodeRefs 0 refs). split; [apply MarshalRefs_encode|].
  rewrite encodeRefs_deltas.
  rewrite <- (deltas_length 0 refs).
  induction Hd as [|d ds Hd _ IH]; [done|].
  cbn [fmap list_fmap concat]. rewrite length_app, IH, varint_spec_small by done.
  done.
Qed.

Lemma X3_MarshalRefs_one_byte_per_small_delta_witness :
  ∃ data, MarshalRefs [10; 10; 50; 113] = Some data
          ∧ length data = length [10; 10; 50; 113].
Proof.
  apply (X3_MarshalRefs_one_byte_per_small_delta [10; 10; 50; 113]).
  apply (bool_decide_unpack _). vm_compute. exact I.
Defined.

Lemma ReadUvarint_loop_consumes n : ∀ i x s r v r',
  ReadUvarint_loop n i x s r = (v, None, r') → (length r' < length r)%nat.
Proof.
  induction n as [|n IH]; intros i x s r v r' Hr; [done|].
  destruct r as [|b r]; [done|]. rewrite ReadUvarint_loop_cons in Hr.
  destruct (b <? 128).
  - case_decide; simplify_eq. simpl. lia.
  - apply IH in Hr. simpl. lia.
Qed.

Lemma ReadVarint_consumes r v r' :
  ReadVarint r = (v, None, r') → (length r' < length r)%nat.
Proof.
  unfold ReadVarint, ReadUvarint.
  destruct (ReadUvarint_loop _ _ _ _ _) as [[ux err] r0] eqn:Hr.
  intros [= _ -> ->]. by eapply ReadUvarint_loop_consumes.
Qed.

Lemma UnmarshalRefs_loop_S fuel r lastRef refs :
  UnmarshalRefs_loop (S fuel) r lastRef refs =
  let '(ref, err, r') := ReadVarint r in
  match err with
  | Some EOF => (refs, [])
  | Some e => (refs, [e])
  | None => UnmarshalRefs_loop fuel r' (int64 (lastRef + ref))
              (refs ++ [int64 (lastRef + ref)])
  end.
Proof. done. Qed.

(** Every iteration of the loop of [UnmarshalRefs] that does not end it
    consumes a byte: more than [length r] iterations change nothing. *)
Lemma UnmarshalRefs_loop_fuel fuel1 : ∀ fuel2 r lastRef refs,
  (length r < fuel1)%nat → (length r < fuel2)%nat →
  UnmarshalRefs_loop fuel1 r lastRef refs = UnmarshalRefs_loop fuel2 r lastRef refs.
Proof.
  induction fuel1 as [|fuel1 IH]; intros fuel2 r lastRef refs H1 H2; [lia|].
  destruct fuel2 as [|fuel2]; [lia|]. rewrite !UnmarshalRefs_loop_S.
  destruct (ReadVarint r) as [[v err] r'] eqn:Hr.
  destruct err as [e|]; [done|].
  apply ReadVarint_consumes in Hr. apply IH; lia.
Qed.

Lemma UnmarshalRefs_loop_result fuel : ∀ r lastRef refs,
  Forall is_int64 refs →
  let res := UnmarshalRefs_loop fuel r lastRef refs in
  (length res.1 ≤ length refs + length r)%nat
  ∧ Forall is_int64 res.1 ∧ (length res.2 ≤ 1)%nat.
Proof.
  induction fuel as [|fuel IH]; intros r lastRef refs Hrefs.
  - simpl. split_and!; [lia|done|lia].
  - cbv zeta. rewrite UnmarshalRefs_loop_S.
    destruct (ReadVarint r) as [[v err] r'] eqn:Hr.
    destruct err as [[]|]; simpl; try (split_and!; [lia|done|lia]).
    apply ReadVarint_consumes in Hr.
    destruct (IH r' (int64 (lastRef + v)) (refs ++ [int64 (lastRef + v)]))
      as (Hl & Hi & He).
    { apply Forall_app. split; [done|]. apply Forall_singleton, int64_is_int64. }
    rewrite length_app in Hl. simpl in Hl. split_and!; [lia|done..].
Qed.

(** X4.  On any input whatever [UnmarshalRefs] returns at most one value
    for each byte, every value an int64, and logs at most one error; the
    loop has ended by the time it has run once more than there are
    bytes. *)
Theorem X4_UnmarshalRefs_any_input (buf : list Z) :
  (length (UnmarshalRefs buf) ≤ length buf)%nat
  ∧ Forall is_int64 (UnmarshalRefs buf)
  ∧ (length (UnmarshalRefs_logged buf).2 ≤ 1)%nat
  ∧ (∀ fuel, (length buf < fuel)%nat →
       UnmarshalRefs_loop fuel buf 0 [] = UnmarshalRefs_logged buf).
Proof.
  destruct (UnmarshalRefs_loop_result (S (length buf)) buf 0 [])
    as (Hl & Hi & He); [done|].
  split_and!; [done..|].
  intros fuel Hf. unfold UnmarshalRefs_logged. apply UnmarshalRefs_loop_fuel; lia.
Qed.

(** ** Overlong integers *)

Lemma ReadUvarint_loop_overlong n : ∀ (i : nat) x s (t rest : list Z),
  Forall (λ b, 128 ≤ b) t → length t = n →
  ∃ x', ReadUvarint_loop n i x s (t ++ rest) = (x', Some errOverflow, rest).
Proof.
  induction n as [|n IH]; intros i x s t rest Ht Hlen.
  - destruct t; [|done]. by exists x.
  - destruct t as [|b t]; [done|]. apply Forall_cons in Ht as [Hb Ht].
    cbn [app]. rewrite ReadUvarint_loop_cons.
    destruct (Z.ltb_spec b 128); [lia|].
    apply IH; [done|]. simpl in Hlen. lia.
Qed.

Lemma ReadUvarint_loop_tenth_byte n : ∀ (i : nat) x s (t rest : list Z) b,
  (S n + i = MaxVarintLen64)%nat →
  Forall (λ b, 128 ≤ b) t → length t = n → 1 < b < 128 →
  ∃ x', ReadUvarint_loop (S n) i x s (t ++ b :: rest) = (x', Some errOverflow, rest).
Proof.
  induction n as [|n IH]; intros i x s t rest b Hn Ht Hlen Hb.
  - destruct t; [|done]. cbn [app]. rewrite ReadUvarint_loop_cons.
    destruct (Z.ltb_spec b 128); [|lia].
    rewrite decide_True by (unfold MaxVarintLen64 in *; lia). by exists x.
  - destruct t as [|c t]; [done|]. apply Forall_cons in Ht as [Hc Ht].
    cbn [app]. rewrite ReadUvarint_loop_cons.
    destruct (Z.ltb_spec c 128); [lia|].
    apply IH; [lia|done| |done]. simpl in Hlen. lia.
Qed.

(** X5.  An integer that does not fit 64 bits (ten bytes with the
    continuation bit, or a tenth byte above one) ends the decoding:
    [UnmarshalRefs] returns the values before it, hands [errOverflow] to
    the log and ignores the rest of the input. *)
Theorem X5_UnmarshalRefs_overflow (s : list Z) (data t rest : list Z) :
  Forall is_int64 s →
  MarshalRefs s = Some data →
  (Forall (λ b, 128 ≤ b) t ∧ length t = 10%nat)
  ∨ (∃ c b, t = c ++ [b] ∧ Forall (λ b, 128 ≤ b) c ∧ length c = 9%nat
            ∧ 1 < b < 128) →
  UnmarshalRefs_logged (data ++ t ++ rest) = (s, [errOverflow]).
Proof.
  intros Hs Hm Ht. rewrite MarshalRefs_encode in Hm. injection Hm as <-.
  rewrite UnmarshalRefs_logged_encode by done.
  rewrite Nat.add_1_r, UnmarshalRefs_loop_S. unfold ReadVarint, ReadUvarint.
  destruct Ht as [[Ht Hl]|(c & b & -> & Hc & Hl & Hb)].
  - destruct (ReadUvarint_loop_overlong MaxVarintLen64 0 0 0 t rest Ht Hl)
      as [x' ->]. done.
  - rewrite <- app_assoc. cbn [app]. change MaxVarintLen64 with (S 9).
    destruct (ReadUvarint_loop_tenth_byte 9 0 0 0 c rest b) as [x' ->]; done.
Qed.

Lemma X5_UnmarshalRefs_overflow_witness :
  UnmarshalRefs_logged
    ([20] ++ [255; 255; 255; 255; 255; 255; 255; 255; 255; 2] ++ [6])
  = ([10], [errOverflow]).
Proof.
  apply (X5_UnmarshalRefs_overflow [10]).
  - apply (bool_decide_unpack _). vm_compute. exact I.
  - vm_compute. reflexivity.
  - right. exists [255; 255; 255; 255; 255; 255; 255; 255; 255], 2.
    split; [reflexivity|]. split; [|split; [reflexivity|lia]].
    apply (bool_decide_unpack _). vm_compute. exact I.
Defined.

(** ** Concatenated encodings *)

Lemma int64_shift a d : int64 (int64 a + d) = int64 (a + d).
Proof. unfold int64. zmod. Qed.

Lemma UnmarshalRefs_loop_shifted refs : ∀ fuel last base d acc rest,
  int64 (last + d) = base →
  (length refs ≤ fuel)%nat →
  UnmarshalRefs_loop (fuel + length rest + 1) (encodeRefs last refs ++ rest) base acc
  = UnmarshalRefs_loop (fuel - length refs + length rest + 1) rest
      (last_def base ((λ v, int64 (v + d)) <$> refs))
      (acc ++ ((λ v, int64 (v + d)) <$> refs)).
Proof.
  induction refs as [|ref refs IH]; intros fuel last base d acc rest Hb Hfuel.
  - simpl. by rewrite app_nil_r, Nat.sub_0_r.
  - simpl in Hfuel. destruct fuel as [|fuel]; [lia|].
    cbn [encodeRefs]. rewrite <- app_assoc.
    rewrite zigzag_spec_eq by apply int64_is_int64.
    change (S fuel + length rest + 1)%nat with (S (fuel + length rest + 1)).
    rewrite UnmarshalRefs_loop_S.
    rewrite ReadVarint_bytes by apply int64_is_int64.
    assert (Hv : int64 (base + int64 (ref - last)) = int64 (ref + d)).
    { subst base. unfold int64. zmod. }
    rewrite Hv.
    rewrite (IH fuel ref (int64 (ref + d)) d) by (done || lia).
    rewrite fmap_cons, last_def_cons, <- app_assoc. done.
Qed.

(** X20.  Values are stored as differences, the first from zero: the
    bytes of two encodings put end to end do not decode to the two lists
    put end to end; the values of the second come out shifted by the last
    value of the first (with the wrap-around of int64). *)
Theorem X20_UnmarshalRefs_of_concatenation (s1 s2 data1 data2 : list Z) :
  Forall is_int64 s1 →
  MarshalRefs s1 = Some data1 → MarshalRefs s2 = Some data2 →
  UnmarshalRefs (data1 ++ data2)
  = s1 ++ ((λ v, int64 (v + last_def 0 s1)) <$> s2).
Proof.
  intros Hs1 Hm1 Hm2. rewrite MarshalRefs_encode in Hm1, Hm2.
  injection Hm1 as <-. injection Hm2 as <-.
  unfold UnmarshalRefs. rewrite UnmarshalRefs_logged_encode by done.
  assert (Hl : is_int64 (last_def 0 s1)).
  { unfold last_def. destruct (last s1) as [v|] eqn:Hlast; simpl.
    - apply last_Some in Hlast as [l' ->]. apply Forall_app in Hs1 as [_ Hv].
      exact (Forall_inv Hv).
    - unfold is_int64. pow2. lia. }
  pose proof (encodeRefs_length 0 s2) as Hlen.
  pose proof (UnmarshalRefs_loop_shifted s2
                (length (encodeRefs 0 s1) - length s1 + length (encodeRefs 0 s2))
                0 (last_def 0 s1) (last_def 0 s1) s1 []
                (int64_id _ Hl) ltac:(lia)) as H.
  simpl length in H. rewrite app_nil_r, !Nat.add_0_r in H.
  rewrite H. by rewrite Nat.add_1_r.
Qed.

Lemma X20_UnmarshalRefs_of_concatenation_witness :
  UnmarshalRefs ([20] ++ [6; 4]) = [10] ++ [13; 15].
Proof.
  apply (X20_UnmarshalRefs_of_concatenation [10] [3; 5] [20] [6; 4]).
  - apply (bool_decide_unpack _). vm_compute. exact I.
  - vm_compute. reflexivity.
  - vm_compute. reflexivity.
Defined.

(** ** The pending lists *)

Lemma insertRefs_split refs ref :
  StronglySorted Z.le refs →
  ∃ i, insertRefs refs ref = take i refs ++ ref :: drop i refs
       ∧ Forall (λ x, x < ref) (take i refs)
       ∧ Forall (λ x, ref ≤ x) (drop i refs).
Proof.
  intros Hs. destruct (Search_sorted refs ref Hs) as (Hr & Hlo & Hhi).
  rewrite insertRefs_eq. set (i := sort.Search _ _) in *.
  case_decide as Hi; [by exists i|].
  assert (i = length refs) as Hn.
  { destruct (decide (i < length refs)%nat) as [Hlt|]; [|lia].
    destruct (lookup_lt_is_Some_2 refs i) as [x Hx]; [done|].
    exfalso. apply Hi. split; [done|].
    rewrite (list_lookup_total_correct _ _ _ Hx).
    rewrite Forall_forall in Hhi. apply Hhi. apply list_elem_of_lookup.
    exists 0%nat. by rewrite lookup_drop, Nat.add_0_r. }
  exists i. rewrite Hn in *. rewrite take_ge, drop_ge in * by lia. done.
Qed.

Lemma filter_all (P : Z → Prop) `{!∀ x, Decision (P x)} (l : list Z) :
  Forall P l → filter P l = l.
Proof.
  induction 1 as [|x l Hx _ IH]; [done|].
  by rewrite filter_cons, decide_True, IH.
Qed.

Lemma filter_none (P : Z → Prop) `{!∀ x, Decision (P x)} (l : list Z) :
  Forall (λ x, ¬ P x) l → filter P l = [].
Proof.
  induction 1 as [|x l Hx _ IH]; [done|].
  by rewrite filter_cons, decide_False, IH.
Qed.

(** X6.  [insertRefs] puts a ref into an ascending list after every
    smaller value and before every value that is not smaller (so in front
    of the values equal to it); nothing else moves. *)
Theorem X6_insertRefs_position (refs : list Z) (ref : Z) :
  Sorted Z.le refs →
  insertRefs refs ref
  = filter (λ x, x < ref) refs ++ ref :: filter (λ x, ref ≤ x) refs.
Proof.
  intros Hs. apply Sorted_StronglySorted in Hs; [|apply _].
  destruct (insertRefs_split refs ref Hs) as (i & -> & Hlo & Hhi).
  rewrite <- (take_drop i refs) at 3 4. rewrite !filter_app.
  rewrite (filter_all _ _ Hlo), (filter_all _ _ Hhi).
  rewrite (filter_none (λ x, x < ref) (drop i refs)),
          (filter_none (λ x, ref ≤ x) (take i refs)).
  - by rewrite app_nil_r.
  - eapply Forall_impl; [exact Hlo|]. simpl. lia.
  - eapply Forall_impl; [exact Hhi|]. simpl. lia.
Qed.

Lemma X6_insertRefs_position_witness :
  insertRefs [1; 3; 3; 7] 3 = [1] ++ 3 :: [3; 3; 7].
Proof.
  apply (X6_insertRefs_position [1; 3; 3; 7] 3).
  apply (bool_decide_unpack _). vm_compute. exact I.
Defined.

Lemma addToCache_fold_sorted (es : list idRef) : ∀ b : gmap Z (list Z),
  map_Forall (λ _ refs, StronglySorted Z.le refs ∧ refs ≠ []) b →
  map_Forall (λ _ refs, StronglySorted Z.le refs ∧ refs ≠ [])
    (foldl (λ b e, addToCache b (idRef_id e) (idRef_ref e)) b es).
Proof.
  induction es as [|e es IH]; intros b Hb; [done|]. simpl. apply IH.
  unfold addToCache. apply map_Forall_insert_2; [|done].
  assert (Hs : StronglySorted Z.le
                 (match b !! idRef_id e with Some refs => refs | None => [] end)).
  { destruct (b !! idRef_id e) eqn:Hl; [apply (Hb _ _ Hl)|constructor]. }
  split; [by apply insertRefs_StronglySorted|].
  intros Hnil. pose proof (insertRefs_Permutation
    (match b !! idRef_id e with Some refs => refs | None => [] end) (idRef_ref e)) as Hp.
  rewrite Hnil in Hp. by apply Permutation_nil_cons in Hp.
Qed.

Lemma addToCache_fold_refsIn (es : list idRef) : ∀ (b : gmap Z (list Z)) id,
  refsIn id (foldl (λ b e, addToCache b (idRef_id e) (idRef_ref e)) b es)
  ≡ₚ refsIn id b ++ refsOf id es.
Proof.
  induction es as [|e es IH]; intros b id; simpl.
  - unfold refsOf. simpl. by rewrite app_nil_r.
  - rewrite IH, refsIn_addToCache, refsOf_cons.
    rewrite !app_assoc. f_equiv. apply Permutation_app_comm.
Qed.

Lemma addToCache_fold_dom (es : list idRef) : ∀ b : gmap Z (list Z),
  dom (foldl (λ b e, addToCache b (idRef_id e) (idRef_ref e)) b es)
  = dom b ∪ list_to_set (idRef_id <$> es).
Proof.
  induction es as [|e es IH]; intros b; simpl.
  - by rewrite (right_id_L ∅ (∪)).
  - rewrite IH. unfold addToCache. rewrite dom_insert_L.
    by rewrite (comm_L (∪) {[idRef_id e]} (dom b)), (assoc_L (∪)).
Qed.

(** X7.  The live buffer, filled from empty by [addToCache] with any
    entries in any order, holds exactly the ids that occurred and, for
    each of them, the ascending list of the refs added for it, duplicates
    included; no list in it is empty, so its length counts the distinct
    ids. *)
Theorem X7_addToCache_builds_sorted_lists (es : list idRef) (id : Z) :
  let b := foldl (λ b e, addToCache b (idRef_id e) (idRef_ref e)) ∅ es in
  refsIn id b = sort.Sort (refsOf id es)
  ∧ dom b = list_to_set (idRef_id <$> es)
  ∧ (b !! id = None ↔ refsOf id es = []).
Proof.
  simpl.
  pose proof (addToCache_fold_sorted es ∅ (map_Forall_empty _)) as Hs.
  pose proof (addToCache_fold_refsIn es ∅ id) as Hp.
  rewrite refsIn_empty in Hp. simpl in Hp.
  set (b := foldl _ _ _) in *. split_and!.
  - apply ascending_unique; [|apply Sort_StronglySorted|by rewrite Sort_Permutation].
    unfold refsIn. destruct (b !! id) as [refs|] eqn:Hl; [apply (Hs _ _ Hl)|constructor].
  - unfold b. rewrite addToCache_fold_dom, dom_empty_L. by rewrite (left_id_L ∅ (∪)).
  - unfold refsIn in Hp. destruct (b !! id) as [refs|] eqn:Hl; simpl in Hp.
    + destruct (Hs _ _ Hl) as [_ Hne]. split; [done|].
      intros Hnil. rewrite Hnil in Hp. by apply Permutation_nil_r in Hp.
    + split; [|done]. intros _. by apply Permutation_nil_l in Hp.
Qed.

(** ** The store *)

(** X8.  [Get] reads the store only: no step of the pipeline but a
    successful batch write of the writer changes what it returns, so an
    entry accepted by [add] is not visible before its buffer has been
    flushed. *)
Theorem X8_Get_sees_flushed_refs_only (x x' : RefIndex) (ev : event) (id : Z) :
  exec x ev = Some x' → ev ≠ Write true →
  db x' = db x ∧ Get (db x') id = Get (db x) id.
Proof.
  intros Hex Hev.
  assert (db x' = db x) as ->; [|done].
  destruct ev; try (simpl in Hex; by simplify_option_eq).
  - by apply exec_Dispatch_inv in Hex as (? & ? & ? & ? & ? & _ & _ & _ & _ & ->).
  - by apply exec_DispatchEnd_inv in Hex as (? & ? & _ & _ & _ & _ & _ & ->).
  - destruct ok; [done|].
    apply exec_Write_inv in Hex as (buf & ? & db' & ? & ? & _ & _ & Hw & _ & ->).
    rewrite writeRefs_failed in Hw. by simplify_eq.
Qed.

Lemma X8_Get_sees_flushed_refs_only_witness :
  ∃ x', exec (NewRefIndex ∅ []) (Add (IdRef 5 10)) = Some x'
        ∧ Get (db x') 5 = Get (db (NewRefIndex ∅ [])) 5.
Proof.
  destruct (exec _ _) as [x'|] eqn:Hex; [|by vm_compute in Hex].
  exists x'. split; [exact eq_refl|].
  exact (proj2 (X8_Get_sees_flushed_refs_only _ x' _ 5 Hex ltac:(discriminate))).
Defined.

(** X9.  A flush writes the keys of the ids its buffer holds and no
    other: the record of every other key is left as it was.  The order
    in which the workers deliver their pairs to the batch does not
    matter: the ids of a buffer have distinct keys. *)
Theorem X9_writeRefs_touches_its_keys_only
    (db db' : gmap (list Z) (list Z)) (b cleared : gmap Z (list Z))
    (err : option levigo.error) (ok : bool) :
  buffer_ok b →
  writeRefs db ok b = Some (db', cleared, err) →
  (∀ k, (∀ id, is_Some (b !! id) → k ≠ idToKeyBuf id) → db' !! k = db !! k)
  ∧ (∀ id, is_int64 id → b !! id = None → db' !! idToKeyBuf id = db !! idToKeyBuf id)
  ∧ (∀ items,
       items ≡ₚ map_to_list b →
       levigo.Write db
         ((λ item : Z * list Z,
             (idToKeyBuf item.1,
              encodeRefs 0 (mergedRefs db (idToKeyBuf item.1) item.2))) <$> items) ok
       = (db', err)).
Proof.
  intros Hb Hw.
  assert (Hnotin : ∀ k, (∀ id, is_Some (b !! id) → k ≠ idToKeyBuf id) →
                        db' !! k = db !! k).
  { intros k Hk. destruct ok; [by eapply writeRefs_lookup_notin|].
    rewrite writeRefs_failed in Hw. by simplify_eq. }
  split; [done|]. split.
  - intros id Hid Hnone. apply Hnotin. intros id' [refs Hid'] Hk.
    apply idToKeyBuf_inj in Hk; [congruence|done|apply (Hb _ _ Hid')].
  - intros items Hp. rewrite writeRefs_eq in Hw.
    rewrite (Write_batch_order db _
               ((λ item : Z * list Z,
                   (idToKeyBuf item.1,
                    encodeRefs 0 (mergedRefs db (idToKeyBuf item.1) item.2)))
                <$> map_to_list b)).
    + destruct (levigo.Write _ _ _). by simplify_eq.
    + rewrite Hp. by apply writeRefs_keys_NoDup.
    + by rewrite Hp.
Qed.

Lemma X9_writeRefs_touches_its_keys_only_witness :
  ∃ db' cleared err,
    writeRefs {[idToKeyBuf 7 := [6]]} true {[5 := [10]]} = Some (db', cleared, err)
    ∧ db' !! idToKeyBuf 7 = Some [6].
Proof.
  destruct (writeRefs _ _ _) as [[[db' cl] err]|] eqn:Hw; [|by vm_compute in Hw].
  exists db', cl, err. split; [exact eq_refl|].
  assert (Hb : buffer_ok {[5 := [10]]}).
  { apply map_Forall_singleton. split; [|split].
    - unfold is_int64. pow2. lia.
    - apply Forall_singleton. unfold is_int64. pow2. lia.
    - repeat constructor. }
  destruct (X9_writeRefs_touches_its_keys_only _ _ _ _ _ _ Hb Hw) as (_ & H & _).
  rewrite (H 7); [by vm_compute| unfold is_int64; pow2; lia | by vm_compute].
Defined.

(** X10.  A persisted record that ends inside a variable-length integer
    is not detected by the merge: [loadAppendMarshal] keeps the values
    decoded before the cut, merges the new refs into them and rewrites
    the record, so the value that was cut is lost for good. *)
Theorem X10_merge_of_truncated_record
    (db : gmap (list Z) (list Z)) (keyBuf : list Z)
    (s : list Z) (v : Z) (k : nat) (data0 data newRefs : list Z) :
  Forall is_int64 (s ++ [v]) →
  MarshalRefs s = Some data0 →
  MarshalRefs (s ++ [v]) = Some data →
  (length data0 < k < length data)%nat →
  db !! keyBuf = Some (take k data) →
  loadAppendMarshal db keyBuf newRefs = MarshalRefs (sort.Sort (s ++ newRefs)).
Proof.
  intros Hsv Hm0 Hm Hk Hdb.
  rewrite MarshalRefs_encode in Hm0, Hm. injection Hm0 as <-. injection Hm as <-.
  unfold loadAppendMarshal. rewrite Hdb. simpl.
  unfold UnmarshalRefs. by rewrite UnmarshalRefs_logged_truncated.
Qed.

Lemma X10_merge_of_truncated_record_witness :
  loadAppendMarshal {[idToKeyBuf 5 := [20; 188]]} (idToKeyBuf 5) [3]
  = MarshalRefs (sort.Sort ([10] ++ [3])).
Proof.
  apply (X10_merge_of_truncated_record _ _ [10] 1000 2 [20] [20; 188; 15]).
  - apply (bool_decide_unpack _). vm_compute. exact I.
  - vm_compute. reflexivity.
  - vm_compute. reflexivity.
  - simpl. lia.
  - vm_compute. reflexivity.
Defined.

(** ** Runs of the pipeline *)

Lemma run_nothing_accepted evs : ∀ x x',
  run x evs = Some x' → accepted evs = [] →
  addc x = [] → buffer x = ∅ → writec x = [] →
  db x' = db x ∧ addc x' = [] ∧ buffer x' = ∅ ∧ writec x' = []
  ∧ logged x' = logged x.
Proof.
  induction evs as [|ev evs IH]; intros x x' Hrun Hacc Ha Hb Hw; simpl in Hrun.
  - by simplify_eq.
  - destruct (exec x ev) as [x1|] eqn:Hex; [|done]. simpl in Hrun.
    rewrite accepted_cons in Hacc. apply app_eq_nil in Hacc as [Hacc1 Hacc].
    assert (db x1 = db x ∧ addc x1 = [] ∧ buffer x1 = ∅ ∧ writec x1 = []
            ∧ logged x1 = logged x) as (Hd1 & Ha1 & Hb1 & Hw1 & Hl1).
    { destruct ev; try done; try (simpl in Hex; by simplify_option_eq).
      - apply exec_Dispatch_inv in Hex as (? & ? & ? & ? & ? & _ & Ha' & _).
        congruence.
      - apply exec_DispatchEnd_inv in Hex as (buf & out & _ & _ & _ & Hd & _ & ->).
        unfold dispatch_end in Hd. rewrite Hb, map_size_empty in Hd.
        simpl in Hd. simplify_eq. simpl. by rewrite Hw.
      - apply exec_Write_inv in Hex as (? & ? & ? & ? & ? & _ & Hw' & _).
        congruence. }
    destruct (IH x1 x' Hrun Hacc Ha1 Hb1 Hw1) as (? & ? & ? & ? & ?).
    split_and!; congruence.
Qed.

(** X11.  An index on which nothing was added is closed without a write:
    whatever the steps taken, as long as [add] accepted nothing the store
    holds what it held when the index was opened, the writer was handed
    no buffer, and nothing was logged; and [Close] does return. *)
Theorem X11_nothing_added_nothing_written
    (db0 : gmap (list Z) (list Z)) (evs : list event) (x : RefIndex) :
  run (NewRefIndex db0 []) evs = Some x → accepted evs = [] →
  db x = db0 ∧ writec x = [] ∧ logged x = []
  ∧ ∃ x', run (NewRefIndex db0 [])
            [CloseAdd; DispatchEnd; CloseWrite; WriterEnd; CloseDb] = Some x'
          ∧ dbOpen x' = false ∧ db x' = db0.
Proof.
  intros Hrun Hacc.
  destruct (run_nothing_accepted evs _ _ Hrun Hacc) as (? & ? & ? & ? & ?);
    [done..|].
  split_and!; [done..|]. eexists. split; [reflexivity|]. done.
Qed.

Lemma X11_nothing_added_nothing_written_witness :
  ∃ x, run (NewRefIndex {[idToKeyBuf 5 := [20]]} [])
         [Offer {[1 := [2]]}; CloseAdd; Take; DispatchEnd] = Some x
       ∧ db x = {[idToKeyBuf 5 := [20]]}.
Proof.
  destruct (run _ _) as [x|] eqn:Hrun; [|by vm_compute in Hrun].
  exists x. split; [exact eq_refl|].
  exact (proj1 (X11_nothing_added_nothing_written _ _ x Hrun eq_refl)).
Defined.

(** What the store and the pipeline hold of an id was in the store at the
    start or was accepted, also when batch writes fail. *)
Lemma exec_held_refs db0 hist x ev x' id :
  Inv x → is_int64 id →
  Get (db x) id ++ pendingRefs x id ⊆+ Get db0 id ++ refsOf id hist →
  exec x ev = Some x' →
  Get (db x') id ++ pendingRefs x' id
  ⊆+ Get db0 id ++ refsOf id (hist ++ accepted [ev]).
Proof.
  intros HI Hid HD Hex.
  destruct ev; simpl accepted; rewrite ?app_nil_r.
  - simpl in Hex. simplify_option_eq. unfold pendingRefs in *. simpl.
    rewrite !refsOf_app, !app_assoc. apply submseteq_app; [|done].
    by rewrite <- !app_assoc.
  - destruct (pendingRefs_Dispatch x x' id HI Hex) as [-> ->]. done.
  - destruct (pendingRefs_DispatchEnd x x' id Hex) as [-> ->]. done.
  - destruct ok.
    + by rewrite (pendingRefs_Write x x' id HI Hid Hex).
    + apply exec_Write_inv in Hex
        as (buf & rest & db' & cleared & err & Hw & Hwc' & Hwr & -> & ->).
      rewrite writeRefs_failed in Hwr. simplify_eq.
      etrans; [|exact HD]. unfold pendingRefs. simpl. rewrite Hwc'. simpl.
      apply submseteq_skips_l. rewrite <- app_assoc. apply submseteq_inserts_l.
      done.
  - simpl in Hex. by simplify_option_eq.
  - simpl in Hex. by simplify_option_eq.
  - simpl in Hex. by simplify_option_eq.
  - simpl in Hex. by simplify_option_eq.
  - simpl in Hex. by simplify_option_eq.
  - simpl in Hex. by simplify_option_eq.
Qed.

Lemma run_held_refs db0 evs id : ∀ hist x x',
  Inv x → is_int64 id →
  Get (db x) id ++ pendingRefs x id ⊆+ Get db0 id ++ refsOf id hist →
  run x evs = Some x' →
  Get (db x') id ++ pendingRefs x' id
  ⊆+ Get db0 id ++ refsOf id (hist ++ accepted evs).
Proof.
  induction evs as [|ev evs IH]; intros hist x x' HI Hid HD Hrun; simpl in Hrun.
  - simplify_eq. by rewrite app_nil_r.
  - destruct (exec x ev) as [x1|] eqn:Hex; [|done]. simpl in Hrun.
    rewrite accepted_cons, app_assoc.
    eapply IH; [by eapply exec_Inv|done| |done].
    by eapply exec_held_refs.
Qed.

(** X12.  Whatever happens, failed batch writes included, the store never
    holds for an id a ref that was neither there when the index was
    opened nor accepted by [add] for that id, nor more copies of it than
    were. *)
Theorem X12_store_holds_accepted_refs_only
    (db0 : gmap (list Z) (list Z)) (evs : list event) (x : RefIndex) (id : Z) :
  db_ok db0 → is_int64 id →
  run (NewRefIndex db0 []) evs = Some x →
  Get (db x) id ⊆+ Get db0 id ++ refsOf id (accepted evs)
  ∧ Sorted Z.le (Get (db x) id).
Proof.
  intros Hdb Hid Hrun. split.
  - etrans; [apply (submseteq_inserts_r (pendingRefs x id)); reflexivity|].
    apply (run_held_refs db0 evs id [] (NewRefIndex db0 []) x);
      [by apply NewRefIndex_Inv|done| |done].
    unfold pendingRefs, refsOf. simpl. by rewrite refsIn_empty.
  - pose proof (run_Inv _ _ _ (NewRefIndex_Inv db0 Hdb) Hrun) as HI.
    apply StronglySorted_Sorted, (db_ok_Get (db x) id), HI.
Qed.

Lemma X12_store_holds_accepted_refs_only_witness :
  ∃ x, run (NewRefIndex ∅ [])
         [Add (IdRef 5 10); CloseAdd; Dispatch; DispatchEnd; Write false] = Some x
       ∧ Get (db x) 5 ⊆+ Get ∅ 5 ++ [10].
Proof.
  destruct (run _ _) as [x|] eqn:Hrun; [|by vm_compute in Hrun].
  exists x. split; [exact eq_refl|].
  refine (proj1 (X12_store_holds_accepted_refs_only ∅ _ x 5 _ _ Hrun)).
  - apply map_Forall_empty.
  - unfold is_int64. pow2. lia.
Defined.

(** X13.  Reopening merges: when an index is closed and a new index is
    opened on the store it left, what [Get] returns after the second
    [Close] is the ascending list of the refs accepted in both sessions
    (no batch write failing). *)
Theorem X13_two_sessions_merge
    (db0 : gmap (list Z) (list Z)) (evs1 evs2 : list event)
    (x1 x2 : RefIndex) (id : Z) :
  db_ok db0 → is_int64 id →
  run (NewRefIndex db0 []) evs1 = Some x1 → writesOk evs1 → dbOpen x1 = false →
  run (NewRefIndex (db x1) []) evs2 = Some x2 → writesOk evs2 → dbOpen x2 = false →
  Get (db x2) id
  = sort.Sort (Get db0 id ++ refsOf id (accepted evs1) ++ refsOf id (accepted evs2)).
Proof.
  intros Hdb Hid Hr1 Hok1 Hc1 Hr2 Hok2 Hc2.
  pose proof (run_Inv _ _ _ (NewRefIndex_Inv db0 Hdb) Hr1) as HI1.
  rewrite (closed_Get (db x1) evs2 x2 id) by (done || apply HI1).
  rewrite (closed_Get db0 evs1 x1 id) by done.
  apply Sort_proper. by rewrite Sort_Permutation, app_assoc.
Qed.

Lemma X13_two_sessions_merge_witness :
  let close := [CloseAdd; Dispatch; DispatchEnd; Write true; CloseWrite;
                WriterEnd; CloseDb] in
  ∃ x1 x2,
    run (NewRefIndex ∅ []) (Add (IdRef 5 10) :: close) = Some x1
    ∧ run (NewRefIndex (db x1) []) (Add (IdRef 5 3) :: close) = Some x2
    ∧ Get (db x2) 5 = sort.Sort (Get ∅ 5 ++ [10] ++ [3]).
Proof.
  intros close.
  destruct (run (NewRefIndex ∅ []) (Add (IdRef 5 10) :: close)) as [x1|] eqn:H1;
    [|by vm_compute in H1].
  assert (Hx1 : (λ x, (dbOpen x, db x)) <$> run (NewRefIndex ∅ []) (Add (IdRef 5 10) :: close)
                = Some (false, {[idToKeyBuf 5 := [20]]})) by (vm_compute; reflexivity).
  rewrite H1 in Hx1. injection Hx1 as Hc1 Hdb1.
  destruct (run (NewRefIndex (db x1) []) (Add (IdRef 5 3) :: close)) as [x2|] eqn:H2;
    [|rewrite Hdb1 in H2; by vm_compute in H2].
  assert (Hc2 : dbOpen x2 = false).
  { assert (Hx2 : dbOpen <$> run (NewRefIndex {[idToKeyBuf 5 := [20]]} [])
                    (Add (IdRef 5 3) :: close) = Some false) by (vm_compute; reflexivity).
    rewrite <- Hdb1, H2 in Hx2. by injection Hx2. }
  exists x1, x2. split; [exact eq_refl|]. split; [exact H2|].
  refine (X13_two_sessions_merge ∅ _ _ x1 x2 5 _ _ H1 _ Hc1 H2 _ Hc2).
  - apply map_Forall_empty.
  - unfold is_int64. pow2. lia.
  - repeat constructor.
  - repeat constructor.
Defined.

(** ** The facades *)

Lemma run_Add_int64 evs : ∀ x x' e,
  run x evs = Some x' → Add e ∈ evs →
  is_int64 (idRef_id e) ∧ is_int64 (idRef_ref e).
Proof.
  induction evs as [|ev evs IH]; intros x x' e Hrun Hin; simpl in Hrun.
  - by apply elem_of_nil in Hin.
  - destruct (exec x ev) as [x1|] eqn:Hex; [|done]. simpl in Hrun.
    apply elem_of_cons in Hin as [<-|Hin]; [|by eapply IH].
    simpl in Hex. by simplify_option_eq.
Qed.

Lemma elem_of_accepted e evs : e ∈ accepted evs ↔ Add e ∈ evs.
Proof.
  unfold accepted. rewrite list_elem_of_omap. split.
  - intros (ev & Hin & Hev). destruct ev; by simplify_eq.
  - intros Hin. by exists (Add e).
Qed.

Lemma elem_of_refsOf ref id es : ref ∈ refsOf id es ↔ IdRef id ref ∈ es.
Proof.
  unfold refsOf. rewrite list_elem_of_fmap. split.
  - intros ([i r] & -> & Hin). apply list_elem_of_filter in Hin as [Hi Hin].
    simpl in *. by subst.
  - intros Hin. exists (IdRef id ref). split; [done|].
    by apply list_elem_of_filter.
Qed.

Lemma closed_Get_elem db0 evs x id ref :
  db_ok db0 → is_int64 id →
  run (NewRefIndex db0 []) evs = Some x → writesOk evs → dbOpen x = false →
  ref ∈ Get (db x) id ↔ ref ∈ Get db0 id ∨ Add (IdRef id ref) ∈ evs.
Proof.
  intros Hdb Hid Hrun Hok Hc.
  rewrite (closed_Get db0 evs x id), Sort_Permutation by done.
  by rewrite elem_of_app, elem_of_refsOf, elem_of_accepted.
Qed.

(** X14.  Fan-out of [AddFromWay]: once the sends of a call have been
    accepted, in a run that ends with [Close] returned and no batch write
    failed, [Get] of each member node of the way contains the id of the
    way. *)
Theorem X14_AddFromWay_fan_out
    (db0 : gmap (list Z) (list Z)) (evs : list event) (x : RefIndex)
    (way : element.Way) (node : element.Node) :
  db_ok db0 →
  run (NewRefIndex db0 []) evs = Some x → writesOk evs → dbOpen x = false →
  AddFromWay way ⊆ evs →
  node ∈ element.Nodes way →
  element.Way_Id way ∈ Get (db x) (element.Node_Id node).
Proof.
  intros Hdb Hrun Hok Hc Hsub Hnode.
  assert (Hin : Add (IdRef (element.Node_Id node) (element.Way_Id way)) ∈ evs).
  { apply Hsub. unfold AddFromWay. apply list_elem_of_fmap. by exists node. }
  destruct (run_Add_int64 _ _ _ _ Hrun Hin) as [Hid _].
  apply (closed_Get_elem db0 evs x); [done..|]. by right.
Qed.

Lemma X14_AddFromWay_fan_out_witness :
  let way := element.mkWay 99 [element.mkNode 1; element.mkNode 2; element.mkNode 3] in
  let evs := AddFromWay way ++ [CloseAdd; Dispatch; Dispatch; Dispatch; DispatchEnd;
                                 Write true; CloseWrite; WriterEnd; CloseDb] in
  ∃ x, run (NewRefIndex ∅ []) evs = Some x ∧ 99 ∈ Get (db x) 2.
Proof.
  intros way evs.
  destruct (run (NewRefIndex ∅ []) evs) as [x|] eqn:Hrun; [|by vm_compute in Hrun].
  assert (Hc : dbOpen x = false).
  { assert (H : dbOpen <$> run (NewRefIndex ∅ []) evs = Some false)
      by (vm_compute; reflexivity).
    rewrite Hrun in H. by injection H. }
  exists x. split; [exact eq_refl|].
  refine (X14_AddFromWay_fan_out ∅ evs x way (element.mkNode 2) _ Hrun _ Hc _ _).
  - apply map_Forall_empty.
  - repeat constructor.
  - intros ev Hev. apply elem_of_app. by left.
  - simpl. apply list_elem_of_further, list_elem_of_here.
Defined.

Lemma accepted_AddFromMembers relId members :
  accepted (AddFromMembers relId members)
  = (λ m, IdRef (element.Member_Id m) relId)
      <$> filter (λ m, element.Member_Type m = element.WAY) members.
Proof.
  unfold accepted, AddFromMembers.
  induction members as [|m members IH]; [done|].
  rewrite filter_cons. simpl. case_decide; simpl; [f_equal|]; exact IH.
Qed.

(** X15.  Filtering of [AddFromMembers]: only the members of type way are
    sent.  In a run whose accepted entries are those of one call, once
    [Close] has returned and no batch write failed, [Get] of each way
    member contains the id of the relation, and [Get] of an id that is
    not a way member returns what the store held for it before (a node or
    relation member contributes nothing). *)
Theorem X15_AddFromMembers_ways_only
    (db0 : gmap (list Z) (list Z)) (evs : list event) (x : RefIndex)
    (relId : Z) (members : list element.Member) :
  db_ok db0 →
  run (NewRefIndex db0 []) evs = Some x → writesOk evs → dbOpen x = false →
  accepted evs = accepted (AddFromMembers relId members) →
  (∀ m, m ∈ members → element.Member_Type m = element.WAY →
        relId ∈ Get (db x) (element.Member_Id m))
  ∧ (∀ id, is_int64 id →
       (∀ m, m ∈ members → element.Member_Type m = element.WAY →
             element.Member_Id m ≠ id) →
       Get (db x) id = Get db0 id).
Proof.
  intros Hdb Hrun Hok Hc Hacc. rewrite accepted_AddFromMembers in Hacc. split.
  - intros m Hm Hty.
    assert (Hin : Add (IdRef (element.Member_Id m) relId) ∈ evs).
    { apply elem_of_accepted. rewrite Hacc. apply list_elem_of_fmap.
      exists m. split; [done|]. by apply list_elem_of_filter. }
    destruct (run_Add_int64 _ _ _ _ Hrun Hin) as [Hid _].
    apply (closed_Get_elem db0 evs x); [done..|]. by right.
  - intros id Hid Hno. rewrite (closed_Get db0 evs x id), Hacc by done.
    assert (refsOf id ((λ m, IdRef (element.Member_Id m) relId)
              <$> filter (λ m, element.Member_Type m = element.WAY) members) = [])
      as ->.
    { apply elem_of_nil_inv. intros ref Hin. apply elem_of_refsOf in Hin.
      apply list_elem_of_fmap in Hin as (m & Heq & Hm).
      apply list_elem_of_filter in Hm as [Hty Hm]. injection Heq as Hid' _.
      by apply (Hno m Hm Hty). }
    rewrite app_nil_r. apply Sort_id. by apply db_ok_Get.
Qed.

Lemma X15_AddFromMembers_ways_only_witness :
  let members := [element.mkMember 5 element.WAY; element.mkMember 6 element.NODE] in
  let evs := AddFromMembers 42 members
             ++ [CloseAdd; Dispatch; DispatchEnd; Write true; CloseWrite;
                 WriterEnd; CloseDb] in
  ∃ x, run (NewRefIndex ∅ []) evs = Some x
       ∧ 42 ∈ Get (db x) 5 ∧ Get (db x) 6 = Get ∅ 6.
Proof.
  intros members evs.
  destruct (run (NewRefIndex ∅ []) evs) as [x|] eqn:Hrun; [|by vm_compute in Hrun].
  assert (Hc : dbOpen x = false).
  { assert (H : dbOpen <$> run (NewRefIndex ∅ []) evs = Some false)
      by (vm_compute; reflexivity).
    rewrite Hrun in H. by injection H. }
  exists x. split; [exact eq_refl|].
  destruct (X15_AddFromMembers_ways_only ∅ evs x 42 members) as [H1 H2].
  - apply map_Forall_empty.
  - exact Hrun.
  - repeat constructor.
  - exact Hc.
  - reflexivity.
  - split.
    + apply (H1 (element.mkMember 5 element.WAY)); [|reflexivity].
      apply list_elem_of_here.
    + apply H2; [unfold is_int64; pow2; lia|].
      intros m Hm Hty.
      apply elem_of_cons in Hm as [->|Hm]; [simpl; lia|].
      apply list_elem_of_singleton in Hm as ->. discriminate.
Defined.

(** ** The lifecycle of the diff cache *)

(** X16.  [DiffCache.Close] may be called at any time: it sets both index
    fields to nil, leaves the opened flag and the directories alone, does
    nothing on a cache whose indices are nil, and calling it twice is
    calling it once. *)
Theorem X16_DiffCache_Close_idempotent (w : os.World) (c : DC.DiffCache) :
  (DC.Close w c).2 = DC.mkDiffCache (DC.Dir c) None None (DC.opened c)
  ∧ os.dirs (DC.Close w c).1 = os.dirs w
  ∧ DC.Close (DC.Close w c).1 (DC.Close w c).2 = DC.Close w c
  ∧ (DC.Coords c = None → DC.Ways c = None → DC.Close w c = (w, c)).
Proof.
  unfold DC.Close. destruct c as [d [i|] [j|] o]; simpl; split_and!; try done;
    intros; simplify_eq.
Qed.

Lemma release_other p q stores :
  DC.release p (DC.release q (q :: p :: stores)) = stores
  ∧ DC.release q (DC.release p (q :: p :: stores)) = stores.
Proof.
  simpl. rewrite !decide_True by done. simpl. rewrite decide_True by done.
  split; [done|]. destruct (decide (q = p)) as [->|Hne].
  - simpl. by rewrite decide_True.
  - simpl. by rewrite !decide_True.
Qed.

(** X17.  [Open] on a new cache when both stores open: no error, both
    index fields set, the cache marked opened, both store directories on
    disk; and a [Close] after it releases both stores again. *)
Theorem X17_DiffCache_Open_then_Close (w : os.World) (dir : string) :
  let r := DC.Open w (DC.NewDiffCache dir) None None in
  r.2 = None
  ∧ DC.Coords r.1.2 = Some (os.Join dir "coords_index")
  ∧ DC.Ways r.1.2 = Some (os.Join dir "ways_index")
  ∧ DC.opened r.1.2 = true
  ∧ os.dirs r.1.1
    = {[os.Join dir "ways_index"]} ∪ ({[os.Join dir "coords_index"]} ∪ os.dirs w)
  ∧ os.openStores (DC.Close r.1.1 r.1.2).1 = os.openStores w
  ∧ DC.Exists (DC.Close r.1.1 r.1.2).1 (DC.Close r.1.1 r.1.2).2 = true.
Proof.
  simpl. split_and!; try done.
  unfold DC.Close, DC.RefIndex_Close. simpl.
  apply (release_other (os.Join dir "coords_index") (os.Join dir "ways_index")).
Qed.

(** X18.  [Remove] closes the indices when the cache is marked opened and
    then deletes the two directories in turn, returning the first
    failure: when the first deletion fails nothing is deleted, when the
    second fails the first directory is gone and stays gone. *)
Theorem X18_DiffCache_Remove_outcomes
    (w : os.World) (c : DC.DiffCache) (failCoords failWays : option os.error) :
  DC.opened c = true →
  let r := DC.Remove w c failCoords failWays in
  DC.Coords r.1.2 = None ∧ DC.Ways r.1.2 = None
  ∧ match failCoords, failWays with
    | Some e, _ => r.2 = Some e ∧ os.dirs r.1.1 = os.dirs w
    | None, Some e =>
        r.2 = Some e
        ∧ os.dirs r.1.1 = os.dirs w ∖ {[os.Join (DC.Dir c) "coords_index"]}
    | None, None =>
        r.2 = None
        ∧ os.dirs r.1.1 = os.dirs w ∖ {[os.Join (DC.Dir c) "coords_index"]}
                            ∖ {[os.Join (DC.Dir c) "ways_index"]}
    end.
Proof.
  intros Ho. unfold DC.Remove, DC.Close, os.RemoveAll. rewrite Ho.
  destruct c as [d [i|] [j|] o], failCoords as [e|], failWays as [e'|]; done.
Qed.

Lemma X18_DiffCache_Remove_outcomes_witness :
  let r0 := DC.Open (os.mkWorld ∅ []) (DC.NewDiffCache "d") None None in
  let r := DC.Remove r0.1.1 r0.1.2 None (Some os.ErrRemove) in
  r.2 = Some os.ErrRemove
  ∧ os.dirs r.1.1 = os.dirs r0.1.1 ∖ {[os.Join "d" "coords_index"]}.
Proof.
  intros r0 r.
  exact (proj2 (proj2 (X18_DiffCache_Remove_outcomes r0.1.1 r0.1.2 None
                         (Some os.ErrRemove) eq_refl))).
Defined.

(** X19.  [Exists] is true whenever one of the two store directories is
    on disk, opened or not.  So it is after an [Open] on a new cache that
    failed on the second index: the store of the first index was created
    and stays on disk, although both index fields are nil and the cache is
    not marked opened. *)
Theorem X19_DiffCache_Exists_after_failed_Open
    (w : os.World) (dir : string) (e : os.error) :
  (∀ c, os.Join (DC.Dir c) "coords_index" ∈ os.dirs w
        ∨ os.Join (DC.Dir c) "ways_index" ∈ os.dirs w →
        DC.Exists w c = true)
  ∧ (let r := DC.Open w (DC.NewDiffCache dir) None (Some e) in
     r.2 = Some e
     ∧ DC.Coords r.1.2 = None ∧ DC.Ways r.1.2 = None ∧ DC.opened r.1.2 = false
     ∧ os.Join dir "coords_index" ∈ os.dirs r.1.1
     ∧ DC.Exists r.1.1 r.1.2 = true).
Proof.
  assert (HE : ∀ w c, os.Join (DC.Dir c) "coords_index" ∈ os.dirs w
                      ∨ os.Join (DC.Dir c) "ways_index" ∈ os.dirs w →
                      DC.Exists w c = true).
  { intros w0 c Hd. unfold DC.Exists, os.StatExists.
    destruct (DC.opened c); [done|].
    repeat case_bool_decide; intuition congruence. }
  split; [apply HE|].
  assert (Hin : os.Join dir "coords_index"
                ∈ {[os.Join dir "coords_index"]} ∪ os.dirs w)
    by (apply elem_of_union; left; by apply elem_of_singleton).
  simpl. split_and!; [done..|exact Hin|].
  apply HE. left. exact Hin.
Qed.

Lemma X19_DiffCache_Exists_after_failed_Open_witness :
  let r := DC.Open (os.mkWorld ∅ []) (DC.NewDiffCache "d") None (Some os.ErrOpen) in
  os.Join (DC.Dir r.1.2) "coords_index" ∈ os.dirs r.1.1
  ∧ DC.Exists r.1.1 r.1.2 = true.
Proof.
  intros r.
  assert (Hin : os.Join (DC.Dir r.1.2) "coords_index" ∈ os.dirs r.1.1)
    by (apply elem_of_union; left; by apply elem_of_singleton).
  split; [exact Hin|].
  exact (proj1 (X19_DiffCache_Exists_after_failed_Open r.1.1 "d" os.ErrOpen)
           r.1.2 (or_introl Hin)).
Defined.
